(** * rid: k-sortable identifiers and their base-32 text form

    A shallow embedding of package [rid] (the 15-byte [ID], its codec,
    its accessors, the comparison and the text/JSON/SQL adapters) together
    with the properties stated about it.

    Conventions.  A Go [byte] is a [Z] in [0, 256); conversions such as
    [byte(x)] are written out as [x mod 256].  A [[]byte] and a Go [string]
    are lists of such values.  A [uint64] is a [Z] in [0, 2^64). *)

From Stdlib Require Import ZArith Bool Lia String Ascii List.
From Stdlib Require Import Sorted Permutation.
Import ListNotations.
Open Scope Z_scope.

(** ** Bytes and slices *)

Definition is_byte (b : Z) : Prop := 0 <= b < 256.
Definition is_byteb (b : Z) : bool := (0 <=? b) && (b <? 256).

(** [byte(x)]: conversion of an unsigned integer to [byte]. *)
Definition byte (x : Z) : Z := x mod 256.

(** [[]byte(str)] for a string literal. *)
Definition bytes_of_string (s : string) : list Z :=
  map (fun c => Z.of_N (N_of_ascii c)) (list_ascii_of_string s).

(** [s[i]] with a default for positions that no caller reaches. *)
Definition at_ (s : list Z) (i : nat) : Z := nth i s 0.

(** [copy(dst, src)]: the first [min(len dst, len src)] elements of [dst]
    are replaced by those of [src]. *)
Definition copy (dst src : list Z) : list Z :=
  firstn (length dst) src ++ skipn (length src) dst.

(** [s[i] = v] for an index in range. *)
Fixpoint set_at {A : Type} (s : list A) (i : nat) (v : A) : list A :=
  match s, i with
  | [], _ => []
  | _ :: t, O => v :: t
  | h :: t, S i' => h :: set_at t i' v
  end.

(** Results of operations that may return an error or stop the program
    with a run-time panic. *)
Inductive error : Type :=
  | ErrInvalidID
  | ErrUnsupportedType
  | CorruptInputError (offset : nat).

Inductive outcome (A : Type) : Type :=
  | Done (a : A)
  | Panic.
Arguments Done {A} a.
Arguments Panic {A}.

(** ** Constants of the package *)

Definition rawLen : nat := 15.
Definition encodedLen : nat := 24.
Definition charset : string := "0123456789abcdefghjkmnpqrstvwxyz".
Definition charset_bytes : list Z := Eval cbv in bytes_of_string charset.

Definition ID : Type := list Z.
Definition wf_ID (id : ID) : Prop := length id = rawLen /\ Forall is_byte id.

(** [var nilID ID]: the zero value of the array type. *)
Definition nilID : ID := repeat 0 rawLen.

(** [init]: the decoding table, 0xFF everywhere except at the characters of
    [charset], which map to their position. *)
Fixpoint init_fill (tbl : list Z) (cs : list Z) (i : Z) : list Z :=
  match cs with
  | [] => tbl
  | c :: cs' => init_fill (set_at tbl (Z.to_nat c) (byte i)) cs' (i + 1)
  end.

Definition dec : list Z :=
  Eval cbv in init_fill (repeat 255 256) charset_bytes 0.

Definition dec_at (c : Z) : Z := nth (Z.to_nat c) dec 255.

(** ** The standard library's [encoding/base32]

    [encoding = base32.NewEncoding(charset).WithPadding(-1)].  The package
    delegates both directions to this value; the library itself is outside
    the repository. *)
Module Base32.

(** Modelled from the spec: the unpacking step of [Encoding.Encode] of the
    standard library, which is not part of the repository.  The payload is
    cut into 5-bit groups, most significant bit first; [b0] to [b7] are the
    eight groups of one 5-byte quantum.  A group that straddles two bytes
    is the low bits of the first ([hi3], [hi1], [hi4], [hi2]: the number of
    bits it takes from the second) joined with the high bits of the
    second. *)
Definition hi3 (s : Z) : Z := Z.land (byte (Z.shiftl s 2)) 31.
Definition hi1 (s : Z) : Z := Z.land (byte (Z.shiftl s 4)) 31.
Definition hi4 (s : Z) : Z := Z.land (byte (Z.shiftl s 1)) 31.
Definition hi2 (s : Z) : Z := Z.land (byte (Z.shiftl s 3)) 31.
Definition lo2 (s : Z) : Z := Z.land (Z.shiftr s 6) 31.
Definition lo4 (s : Z) : Z := Z.land (Z.shiftr s 4) 31.
Definition lo1 (s : Z) : Z := Z.shiftr s 7.
Definition lo3 (s : Z) : Z := Z.shiftr s 5.

Definition b0 (s0 : Z) : Z := Z.shiftr s0 3.
Definition b1 (s0 s1 : Z) : Z := Z.lor (hi3 s0) (lo2 s1).
Definition b2 (s1 : Z) : Z := Z.land (Z.shiftr s1 1) 31.
Definition b3 (s1 s2 : Z) : Z := Z.lor (hi1 s1) (lo4 s2).
Definition b4 (s2 s3 : Z) : Z := Z.lor (hi4 s2) (lo1 s3).
Definition b5 (s3 : Z) : Z := Z.land (Z.shiftr s3 2) 31.
Definition b6 (s3 s4 : Z) : Z := Z.lor (hi2 s3) (lo3 s4).
Definition b7 (s4 : Z) : Z := Z.land s4 31.

(** The eight groups of a quantum, absent source bytes counting as zero. *)
Definition unpack (s0 s1 s2 s3 s4 : Z) : list Z :=
  [b0 s0; b1 s0 s1; b2 s1; b3 s1 s2; b4 s2 s3; b5 s3; b6 s3 s4; b7 s4].

(** [enc.encode[b & 31]] *)
Definition encode_at (b : Z) : Z :=
  nth (Z.to_nat (Z.land b 31)) charset_bytes 0.

(** Modelled from the spec: [Encoding.Encode] of the standard library, see
    [hi3]: every group is mapped to the character at that position of the
    alphabet and no padding character is written.  A final quantum of 1,
    2, 3 or 4 bytes yields 2, 4, 5 or 7 characters.  The result is the
    sequence of characters written to the destination, which every caller
    sizes to hold them. *)
Fixpoint Encode (src : list Z) : list Z :=
  match src with
  | [] => []
  | s0 :: s1 :: s2 :: s3 :: s4 :: rest =>
      map encode_at (unpack s0 s1 s2 s3 s4) ++ Encode rest
  | [s0; s1; s2; s3] => firstn 7 (map encode_at (unpack s0 s1 s2 s3 0))
  | [s0; s1; s2] => firstn 5 (map encode_at (unpack s0 s1 s2 0 0))
  | [s0; s1] => firstn 4 (map encode_at (unpack s0 s1 0 0 0))
  | [s0] => firstn 2 (map encode_at (unpack s0 0 0 0 0))
  end.

(** Modelled from the spec: the inverse table of the library's encoding,
    0xFF for every byte outside the alphabet; it has the contents of the
    package's own [dec]. *)
Definition decodeMap (c : Z) : Z := dec_at c.

(** Modelled from the spec: the packing step of [Encoding.Decode] of the
    standard library (not part of the repository): the 5-bit values
    [d0] to [d7] of one quantum are packed back into the bytes [dst0] to
    [dst4], every shift truncated to a byte. *)
Definition dst0 (d0 d1 : Z) : Z :=
  Z.lor (byte (Z.shiftl d0 3)) (Z.shiftr d1 2).
Definition dst1 (d1 d2 d3 : Z) : Z :=
  Z.lor (Z.lor (byte (Z.shiftl d1 6)) (byte (Z.shiftl d2 1))) (Z.shiftr d3 4).
Definition dst2 (d3 d4 : Z) : Z :=
  Z.lor (byte (Z.shiftl d3 4)) (Z.shiftr d4 1).
Definition dst3 (d4 d5 d6 : Z) : Z :=
  Z.lor (Z.lor (byte (Z.shiftl d4 7)) (byte (Z.shiftl d5 2))) (Z.shiftr d6 3).
Definition dst4 (d6 d7 : Z) : Z :=
  Z.lor (byte (Z.shiftl d6 5)) d7.

(** Counts of 8, 7, 5, 4 and 2 values give 5, 4, 3, 2 and 1 bytes, any
    other count gives none. *)
Definition pack (dbuf : list Z) : list Z :=
  let d := at_ dbuf in
  let o0 := dst0 (d 0%nat) (d 1%nat) in
  let o1 := dst1 (d 1%nat) (d 2%nat) (d 3%nat) in
  let o2 := dst2 (d 3%nat) (d 4%nat) in
  let o3 := dst3 (d 4%nat) (d 5%nat) (d 6%nat) in
  let o4 := dst4 (d 6%nat) (d 7%nat) in
  match length dbuf with
  | 8%nat => [o0; o1; o2; o3; o4]
  | 7%nat => [o0; o1; o2; o3]
  | 5%nat => [o0; o1; o2]
  | 4%nat => [o0; o1]
  | 2%nat => [o0]
  | _ => []
  end.

(** Position of the first character of [cs] outside the alphabet. *)
Fixpoint first_invalid (cs : list Z) (off : nat) : option nat :=
  match cs with
  | [] => None
  | c :: t =>
      if decodeMap c =? 255 then Some off else first_invalid t (S off)
  end.

Definition decode_quantum (q : list Z) (off : nat)
    (k : list Z * option error) : list Z * option error :=
  match first_invalid q off with
  | Some i => ([], Some (CorruptInputError i))
  | None => (pack (map decodeMap q) ++ fst k, snd k)
  end.

Fixpoint decode_loop (src : list Z) (off : nat) : list Z * option error :=
  match src with
  | [] => ([], None)
  | c0 :: c1 :: c2 :: c3 :: c4 :: c5 :: c6 :: c7 :: rest =>
      match first_invalid [c0; c1; c2; c3; c4; c5; c6; c7] off with
      | Some i => ([], Some (CorruptInputError i))
      | None =>
          let r := decode_loop rest (off + 8) in
          (pack (map decodeMap [c0; c1; c2; c3; c4; c5; c6; c7]) ++ fst r,
           snd r)
      end
  | q => decode_quantum q off ([], None)
  end.

Definition stripNewlines (src : list Z) : list Z :=
  filter (fun c => negb ((c =? 13) || (c =? 10))) src.

(** Modelled from the spec: [Encoding.Decode] of the standard library (not
    part of the repository), for an encoding without padding: line breaks
    are dropped, each character is looked up in the decoding table, a
    character outside the alphabet is a [CorruptInputError], and the 5-bit
    values are packed back into bytes.  The result is the bytes written to
    the front of the destination before the call returned, and the error.
    The input byte 0xFF, which the no-padding encoding compares with its
    absent padding character, is outside the alphabet and never reaches
    this function from the package, which validates every character
    first. *)
Definition Decode (src : list Z) : list Z * option error :=
  decode_loop (stripNewlines src) 0.

End Base32.

(** ** Generation *)

(** [NewWithTimestamp(ts)], with the process signature [rtsig] and the value
    [rv] returned by the call of [randUint64] as explicit inputs. *)
Definition NewWithTimestamp (rtsig : list Z) (rv : Z) (ts : Z) : ID :=
  let id := nilID in
  let id := set_at id 0 (byte (Z.shiftr ts 40)) in
  let id := set_at id 1 (byte (Z.shiftr ts 32)) in
  let id := set_at id 2 (byte (Z.shiftr ts 24)) in
  let id := set_at id 3 (byte (Z.shiftr ts 16)) in
  let id := set_at id 4 (byte (Z.shiftr ts 8)) in
  let id := set_at id 5 (byte ts) in
  let id := set_at id 6 (at_ rtsig 0) in
  let id := set_at id 7 (byte (Z.shiftr rv 56)) in
  let id := set_at id 8 (byte (Z.shiftr rv 48)) in
  let id := set_at id 9 (byte (Z.shiftr rv 40)) in
  let id := set_at id 10 (byte (Z.shiftr rv 32)) in
  let id := set_at id 11 (byte (Z.shiftr rv 24)) in
  let id := set_at id 12 (byte (Z.shiftr rv 16)) in
  let id := set_at id 13 (byte (Z.shiftr rv 8)) in
  let id := set_at id 14 (byte rv) in
  id.

(** [New()]: the clock reading [now] (milliseconds, [time.Now().UnixMilli()])
    converted to [uint64]. *)
Definition New (rtsig : list Z) (rv : Z) (now : Z) : ID :=
  NewWithTimestamp rtsig rv (now mod 2 ^ 64).

(** ** Accessors *)

Definition list_eqb (a b : list Z) : bool :=
  if list_eq_dec Z.eq_dec a b then true else false.

Definition IsNil (id : ID) : bool := list_eqb id nilID.
Definition IsZero (id : ID) : bool := IsNil id.
Definition NilID : ID := nilID.

(** [encode(dst, id)]: the characters are written to the front of [dst]. *)
Definition encode (dst id : list Z) : list Z :=
  copy dst (Base32.Encode id).

Definition String (id : ID) : list Z :=
  let text := repeat 0 encodedLen in
  encode text id.

Definition Bytes (id : ID) : list Z := id.

Definition Timestamp (id : ID) : Z :=
  let b := firstn 6 id in
  Z.lor (Z.lor (Z.lor (Z.lor (Z.lor
    (Z.shiftl (at_ b 0) 40) (Z.shiftl (at_ b 1) 32)) (Z.shiftl (at_ b 2) 24))
    (Z.shiftl (at_ b 3) 16)) (Z.shiftl (at_ b 4) 8)) (at_ b 5).

Definition RuntimeSignature (id : ID) : list Z := firstn 1 (skipn 6 id).

Definition Random (id : ID) : Z :=
  let b := skipn 7 id in
  Z.lor (Z.lor (Z.lor (Z.lor (Z.lor
    (Z.shiftl (at_ b 0) 40) (Z.shiftl (at_ b 1) 32)) (Z.shiftl (at_ b 2) 24))
    (Z.shiftl (at_ b 3) 16)) (Z.shiftl (at_ b 4) 8)) (at_ b 5).

(** ** Parsing *)

(** [s[lo:hi]] of a slice whose capacity is its length: a run-time panic
    unless [0 <= lo <= hi <= len(s)]. *)
Definition slice (s : list Z) (lo hi : Z) : outcome (list Z) :=
  if (0 <=? lo) && (lo <=? hi) && (hi <=? Z.of_nat (length s))
  then Done (firstn (Z.to_nat (hi - lo)) (skipn (Z.to_nat lo) s))
  else Panic.

(** [decode(id, src)]: [encoding.Decode(id[:], src)].  The decoded bytes
    overwrite the front of [*id]; writing past its end is an index out of
    range. *)
Definition decode (id : ID) (src : list Z) : outcome (ID * nat * option error) :=
  let r := Base32.Decode src in
  if (length (fst r) <=? length id)%nat
  then Done (copy id (fst r), length (fst r), snd r)
  else Panic.

(** [id.UnmarshalText(text)]: the value left in [*id] and the error. *)
Definition UnmarshalText (id : ID) (text : list Z) : outcome (ID * option error) :=
  if negb (length text =? encodedLen)%nat then Done (nilID, Some ErrInvalidID)
  else if existsb (fun c => dec_at c =? 255) text
  then Done (nilID, Some ErrInvalidID)
  else match decode id text with
       | Panic => Panic
       | Done (_, _, Some _) => Done (nilID, Some ErrInvalidID)
       | Done (id', _, None) => Done (id', None)
       end.

Definition FromString (str : list Z) : outcome (ID * option error) :=
  UnmarshalText nilID str.

Definition FromBytes (b : list Z) : ID * option error :=
  let id := nilID in
  if negb (length b =? rawLen)%nat then (nilID, Some ErrInvalidID)
  else (copy id b, None).

(** ** Adapters *)

Definition MarshalText (id : ID) : list Z * option error :=
  let text := repeat 0 encodedLen in
  (encode text id, None).

(** A [driver.Value] / [interface{}] as the adapters distinguish it. *)
Inductive value : Type :=
  | VString (s : list Z)
  | VBytes (b : list Z)
  | VNil
  | VOther (type_name : string).

Definition Value (id : ID) : value * option error :=
  if IsNil id then (VNil, None)
  else let r := MarshalText id in (VString (fst r), snd r).

(** [id.Scan(value)]: the value left in [*id] and the error. *)
Definition Scan (id : ID) (v : value) : outcome (ID * option error) :=
  match v with
  | VString val => UnmarshalText id val
  | VBytes val => UnmarshalText id val
  | VNil => Done (nilID, None)
  | VOther _ => Done (id, Some ErrUnsupportedType)
  end.

Definition null_token : list Z := Eval cbv in bytes_of_string "null".
Definition quote : Z := 34.

Definition MarshalJSON (id : ID) : list Z * option error :=
  if list_eqb id nilID then (null_token, None)
  else
    let text := repeat 0 (encodedLen + 2) in
    let text :=
      firstn 1 text
      ++ encode (firstn encodedLen (skipn 1 text)) id
      ++ skipn (encodedLen + 1) text in
    let text := set_at text 0 quote in
    let text := set_at text (encodedLen + 1) quote in
    (text, None).

Definition UnmarshalJSON (id : ID) (text : list Z) : outcome (ID * option error) :=
  if list_eqb text null_token then Done (nilID, None)
  else match slice text 1 (Z.of_nat (length text) - 1) with
       | Panic => Panic
       | Done inner => UnmarshalText id inner
       end.

(** ** Ordering *)

(** Modelled from the spec: [bytes.Compare] of the standard library (not
    part of the repository): lexicographic comparison of two byte slices,
    0 when equal, -1 when the first is smaller, +1 when it is greater; a
    proper prefix is smaller. *)
Fixpoint bytes_Compare (a b : list Z) : Z :=
  match a, b with
  | [], [] => 0
  | [], _ :: _ => -1
  | _ :: _, [] => 1
  | x :: a', y :: b' =>
      if x <? y then -1 else if y <? x then 1 else bytes_Compare a' b'
  end.

Definition Compare (id other : ID) : Z :=
  bytes_Compare (firstn 5 id) (firstn 5 other).

Definition sorter : Type := list ID.

Definition Len (s : sorter) : nat := length s.
Definition Less (s : sorter) (i j : nat) : bool :=
  Compare (nth i s nilID) (nth j s nilID) <? 0.
Definition Swap (s : sorter) (i j : nat) : sorter :=
  set_at (set_at s i (nth j s nilID)) j (nth i s nilID).

(** Modelled from the spec: [sort.Sort] of the standard library (not part of
    the repository).  For a collection of at most 12 elements the library
    runs this insertion sort over [Less] and [Swap]; for longer ones it
    returns some ordering sorted by [Less], of which this is one. *)
Fixpoint sift (s : sorter) (j : nat) : sorter :=
  match j with
  | O => s
  | S j' => if Less s j j' then sift (Swap s j j') j' else s
  end.

Definition insertionSort (s : sorter) : sorter :=
  fold_left sift (seq 1 (Len s - 1)) s.

Definition Sort (ids : list ID) : list ID := insertionSort ids.

(** * Vocabulary of the properties *)

Definition range (n : nat) : list Z := map Z.of_nat (seq 0 n).

(** The values a function takes on [0, n). *)
Definition img (f : Z -> Z) (n : nat) : list Z :=
  nodup Z.eq_dec (map f (range n)).

(** Nested universal checks over finite lists of values. *)
Definition all1 (l1 : list Z) (p : Z -> bool) : bool := forallb p l1.
Definition all2 (l1 l2 : list Z) (p : Z -> Z -> bool) : bool :=
  forallb (fun x => all1 l2 (p x)) l1.
Definition all3 (l1 l2 l3 : list Z) (p : Z -> Z -> Z -> bool) : bool :=
  forallb (fun x => all2 l2 l3 (p x)) l1.

Definition bytes256 : list Z := Eval vm_compute in range 256.
Definition vals32 : list Z := Eval vm_compute in range 32.

Definition in_charset (c : Z) : Prop := In c charset_bytes.
Definition in_charsetb (c : Z) : bool := existsb (Z.eqb c) charset_bytes.

(** The characters of one encoded quantum. *)
Definition enc_quantum (s0 s1 s2 s3 s4 : Z) : list Z :=
  map Base32.encode_at (Base32.unpack s0 s1 s2 s3 s4).

Definition valid_text (text : list Z) : Prop :=
  length text = encodedLen /\ Forall in_charset text.

Definition valid_textb (text : list Z) : bool :=
  (length text =? encodedLen)%nat && forallb in_charsetb text.

Definition sample_id : ID :=
  [1; 132; 233; 202; 163; 74; 197; 3; 211; 127; 230; 123; 49; 83; 169].
Definition sample_text : list Z :=
  Eval cbv in bytes_of_string "062ekjn39b2g7mvzwsxk2mx9".

(** The text of [sample_id] with its last character replaced by [u], a
    letter the alphabet leaves out. *)
Definition bad_text : list Z :=
  Eval cbv in bytes_of_string "062ekjn39b2g7mvzwsxk2mxu".

Definition vector_text : list Z :=
  Eval cbv in bytes_of_string "9p4e2pv0yj3e8a215q4g".
Definition vector_bytes : list Z :=
  [77; 136; 225; 91; 96; 244; 134; 228; 40; 65; 45; 201].

(** The byte-lexicographic order, as a relation: the first list is a proper
    prefix of the second, or at the first position where they differ the
    first list has the smaller byte. *)
Inductive lex_lt : list Z -> list Z -> Prop :=
  | lex_prefix (y : Z) (b : list Z) : lex_lt [] (y :: b)
  | lex_head (x y : Z) (a b : list Z) : x < y -> lex_lt (x :: a) (y :: b)
  | lex_tail (x : Z) (a b : list Z) : lex_lt a b -> lex_lt (x :: a) (x :: b).

(** Two identifiers of the same millisecond and process that differ in all
    random bytes. *)
Definition sample_id' : ID :=
  [1; 132; 233; 202; 163; 74; 197; 167; 117; 15; 26; 99; 161; 111; 179].

(** The number a byte sequence denotes, most significant byte first. *)
Fixpoint be_val (l : list Z) : Z :=
  match l with
  | [] => 0
  | x :: t => x * 256 ^ Z.of_nat (length t) + be_val t
  end.

(** The leading 40 bits of a timestamp truncated to 48 bits. *)
Definition prefix40 (ts : Z) : Z := Z.shiftr (ts mod 2 ^ 48) 8.

(** The text of the nil identifier: 24 times the character [0]. *)
Definition zeros24 : list Z := repeat 48 encodedLen.

(** What [Scan] cannot parse: an ill-formed text, or a value that is
    neither text, bytes nor absent. *)
Definition scan_invalid (v : value) : Prop :=
  match v with
  | VString s | VBytes s => ~ valid_text s
  | VNil => False
  | VOther _ => True
  end.

(** * Vocabulary of the further properties *)

(** The number a sequence of 5-bit groups denotes, most significant group
    first. *)
Fixpoint be32_val (l : list Z) : Z :=
  match l with
  | [] => 0
  | x :: t => x * 32 ^ Z.of_nat (length t) + be32_val t
  end.

(** [a] is not after [b] in the order of [Compare]. *)
Definition Compare_le (a b : ID) : Prop := Compare a b <= 0.

(** Insertion of [x] into a sequence given last element first, as the
    inner loop of the insertion sort performs it: [x] moves towards the
    front past every element it is strictly smaller than. *)
Fixpoint ins_rev (x : ID) (rl : list ID) : list ID :=
  match rl with
  | [] => [x]
  | y :: rl' => if Compare x y <? 0 then y :: ins_rev x rl' else x :: y :: rl'
  end.

(** The character that stands for a 5-bit group. *)
Definition enc_char (d : Z) : Z := nth (Z.to_nat d) charset_bytes 0.

(** The 5-bit groups of a byte sequence made of whole quanta. *)
Fixpoint groups (src : list Z) : list Z :=
  match src with
  | s0 :: s1 :: s2 :: s3 :: s4 :: rest =>
      map (fun b => Z.land b 31) (Base32.unpack s0 s1 s2 s3 s4) ++ groups rest
  | _ => []
  end.

(** ** The [rid] command

    [cmd/rid/main.go].  The result is the lines the command writes, in
    order, and its exit status.  A line is kept by its kind and the values
    formatted into it. *)

(** [fmt.Sprintf("%#x", v)] for a byte: [0x] and the hexadecimal digits in
    lower case, without leading zero. *)
Definition hex_digit (d : Z) : Z := if d <? 10 then 48 + d else 87 + d.

Definition sprintf_hex (v : Z) : list Z :=
  [48; 120] ++ (if v <? 16 then [hex_digit v]
                else [hex_digit (v / 16); hex_digit (v mod 16)]).

(** [strings.Join(s, sep)] *)
Fixpoint join (s : list (list Z)) (sep : list Z) : list Z :=
  match s with
  | [] => []
  | [x] => x
  | x :: t => x ++ sep ++ join t sep
  end.

Definition asHex (b : list Z) : list Z := join (map sprintf_hex b) [44; 32].

(** What [flag.Parse()] of the standard library does with the command
    line: it ends the program itself, with status 0 after the usage text
    for [-h] and with status 2 after a message and the usage text for an
    undefined or malformed flag, or it returns with the value of [-c]
    (1 when absent) and the positional arguments. *)
Inductive flag_outcome : Type :=
  | HelpRequested
  | BadFlag
  | Parsed (count : Z) (args : list (list Z)).

Inductive cli_line : Type :=
  | FlagMessage
  | Usage
  | ConflictError
  | DecodeFailed (arg : list Z) (e : error)
  | Decoded (arg : list Z) (seconds random : Z) (machine : list Z) (pid : Z)
            (time_ms : Z) (hex : list Z)
  | ErrorCount (n : Z)
  | Generated (text : list Z).

Section Command.

(** [Seconds], [Machine] and [Pid] are methods of [ID] that the command
    calls and that this version of the package does not define: they are
    parameters.  [rtsig] is the signature of the process and [draw c] the
    random value and the clock reading that the call of [New] number [c]
    obtains. *)
Variable Seconds : ID -> Z.
Variable Machine : ID -> list Z.
Variable Pid : ID -> Z.
Variable rtsig : list Z.
Variable draw : nat -> Z * Z.

(** The line of a decoded argument; [id.Time()] is the instant
    [time.UnixMilli(id.Timestamp())]. *)
Definition decoded_line (arg : list Z) (id : ID) : cli_line :=
  Decoded arg (Seconds id) (Random id) (Machine id) (Pid id) (Timestamp id)
          (asHex id).

(** The loop over the arguments: every argument is parsed with
    [FromString]; a failure is counted and reported with the argument. *)
Fixpoint decode_args (args : list (list Z)) (errors : Z)
    : outcome (list cli_line * Z) :=
  match args with
  | [] => Done ([], errors)
  | arg :: rest =>
      match FromString arg with
      | Panic => Panic
      | Done (_, Some e) =>
          match decode_args rest (errors + 1) with
          | Panic => Panic
          | Done (ls, n) => Done (DecodeFailed arg e :: ls, n)
          end
      | Done (id, None) =>
          match decode_args rest errors with
          | Panic => Panic
          | Done (ls, n) => Done (decoded_line arg id :: ls, n)
          end
      end
  end.

Definition main (fl : flag_outcome) : outcome (list cli_line * Z) :=
  match fl with
  | HelpRequested => Done ([Usage], 0)
  | BadFlag => Done ([FlagMessage; Usage], 2)
  | Parsed count args =>
      if (count >? 1) && (0 <? length args)%nat
      then Done ([ConflictError; Usage], 1)
      else
        match decode_args args 0 with
        | Panic => Panic
        | Done (ls, errors) =>
            if errors >? 0 then Done (ls ++ [ErrorCount errors], 1)
            else if (length args =? 0)%nat
            then Done (ls ++ map (fun c => Generated
                                    (String (New rtsig (fst (draw c)) (snd (draw c)))))
                                 (seq 0 (Z.to_nat count)), 0)
            else Done (ls, 0)
        end
  end.

(** How one argument is reported. *)
Definition reported (arg : list Z) (l : cli_line) : Prop :=
  (valid_text arg
   /\ exists id, FromString arg = Done (id, None) /\ String id = arg
                 /\ l = decoded_line arg id)
  \/ (~ valid_text arg /\ l = DecodeFailed arg ErrInvalidID).

End Command.

(** The number of arguments that are no well-formed text. *)
Definition invalid_count (args : list (list Z)) : Z :=
  Z.of_nat (length (filter (fun a => negb (valid_textb a)) args)).

(** * Properties *)

(** ** Checking a property on every byte *)

Lemma In_range (n : nat) (x : Z) : 0 <= x < Z.of_nat n -> In x (range n).
Proof.
  intros Hx. unfold range. apply in_map_iff.
  exists (Z.to_nat x). split; [lia|]. apply in_seq. lia.
Qed.

Lemma range_In (n : nat) (x : Z) : In x (range n) -> 0 <= x < Z.of_nat n.
Proof.
  unfold range. intros H. apply in_map_iff in H.
  destruct H as [k [<- Hk]]. apply in_seq in Hk. lia.
Qed.

Lemma In_img (f : Z -> Z) (n : nat) (x : Z) :
  0 <= x < Z.of_nat n -> In (f x) (img f n).
Proof.
  intros Hx. unfold img. apply nodup_In. apply in_map. now apply In_range.
Qed.

Lemma all1_In l1 p x : all1 l1 p = true -> In x l1 -> p x = true.
Proof. unfold all1. intros H Hx. now apply (proj1 (forallb_forall p l1) H). Qed.

Lemma all2_In l1 l2 p x y :
  all2 l1 l2 p = true -> In x l1 -> In y l2 -> p x y = true.
Proof.
  unfold all2. intros H Hx Hy.
  apply (all1_In l2 (p x)); [|assumption].
  now apply (proj1 (forallb_forall _ l1) H).
Qed.

Lemma all3_In l1 l2 l3 p x y z :
  all3 l1 l2 l3 p = true -> In x l1 -> In y l2 -> In z l3 -> p x y z = true.
Proof.
  unfold all3. intros H Hx Hy Hz.
  apply (all2_In l2 l3 (p x)); [|assumption..].
  now apply (proj1 (forallb_forall _ l1) H).
Qed.

Lemma In_bytes256 (b : Z) : is_byte b -> In b bytes256.
Proof. intros H. change bytes256 with (range 256). apply In_range. unfold is_byte in H. lia. Qed.

Lemma In_vals32 (d : Z) : 0 <= d < 32 -> In d vals32.
Proof. intros H. change vals32 with (range 32). apply In_range. lia. Qed.

(** ** The decoding table *)

Lemma in_charsetb_spec (c : Z) : in_charsetb c = true <-> in_charset c.
Proof.
  unfold in_charsetb, in_charset. rewrite existsb_exists. split.
  - intros [x [Hx He]]. apply Z.eqb_eq in He. now subst.
  - intros H. exists c. split; [assumption | apply Z.eqb_refl].
Qed.

Lemma charset_is_byte (c : Z) : in_charset c -> is_byte c.
Proof.
  unfold in_charset, is_byte. intros H.
  assert (Hall : forallb is_byteb charset_bytes = true) by (vm_compute; reflexivity).
  apply (proj1 (forallb_forall _ _) Hall) in H.
  unfold is_byteb in H. apply andb_true_iff in H. lia.
Qed.

(** [dec[c] == 0xFF] exactly for the bytes outside the alphabet. *)
Lemma dec_invalid_byte (c : Z) :
  is_byte c -> (dec_at c =? 255) = negb (in_charsetb c).
Proof.
  intros Hc. apply In_bytes256 in Hc.
  assert (H : all1 bytes256
            (fun c => Bool.eqb (dec_at c =? 255) (negb (in_charsetb c))) = true)
    by (vm_compute; reflexivity).
  apply Bool.eqb_prop. exact (all1_In _ _ _ H Hc).
Qed.

(** The same holds of the values that are no bytes, where the lookup of
    the model falls back to 0xFF. *)
Lemma dec_invalid_iff (c : Z) : (dec_at c =? 255) = negb (in_charsetb c).
Proof.
  destruct (Z_lt_dec c 0) as [Hneg|Hnn].
  - assert (E : Z.to_nat c = 0%nat) by lia.
    unfold dec_at. rewrite E.
    destruct (in_charsetb c) eqn:Hin; [|reflexivity].
    apply in_charsetb_spec, charset_is_byte in Hin. unfold is_byte in Hin. lia.
  - destruct (Z_lt_dec c 256) as [Hlt|Hge].
    + apply dec_invalid_byte. unfold is_byte. lia.
    + unfold dec_at. rewrite nth_overflow by (change (length dec) with 256%nat; lia).
      destruct (in_charsetb c) eqn:Hin; [|reflexivity].
      apply in_charsetb_spec, charset_is_byte in Hin. unfold is_byte in Hin. lia.
Qed.

(** A character of the alphabet decodes to its 5-bit position, and that
    position encodes back to the character. *)
Lemma dec_charset (c : Z) :
  in_charset c ->
  0 <= dec_at c < 32 /\ Base32.encode_at (dec_at c) = c /\ c <> 13 /\ c <> 10.
Proof.
  intros Hc.
  assert (H : forallb (fun c => (0 <=? dec_at c) && (dec_at c <? 32)
                        && (Base32.encode_at (dec_at c) =? c)
                        && negb (c =? 13) && negb (c =? 10)) charset_bytes = true)
    by (vm_compute; reflexivity).
  apply (proj1 (forallb_forall _ _) H) in Hc.
  rewrite !andb_true_iff, !negb_true_iff, !Z.eqb_neq, Z.eqb_eq in Hc.
  destruct Hc as [[[[H0 H1] H2] H3] H4]. lia.
Qed.

(** The character of a 5-bit group belongs to the alphabet and decodes to
    the group. *)
Lemma enc_symbol (b : Z) :
  in_charset (Base32.encode_at b) /\
  Base32.decodeMap (Base32.encode_at b) = Z.land b 31.
Proof.
  assert (Hr : 0 <= Z.land b 31 < 32).
  { split; [apply Z.land_nonneg; lia|].
    change 31 with (Z.ones 5). rewrite Z.land_ones by lia.
    apply Z.mod_pos_bound. lia. }
  unfold Base32.encode_at.
  assert (Hid : Z.land b 31 = Z.of_nat (Z.to_nat (Z.land b 31))) by lia.
  revert Hid. generalize (Z.to_nat (Z.land b 31)). intros n Hn.
  rewrite Hn in Hr. rewrite Hn.
  assert (Hlt : (n < 32)%nat) by lia. clear Hn Hr.
  assert (H : forallb (fun n => in_charsetb (nth n charset_bytes 0)
                 && (Base32.decodeMap (nth n charset_bytes 0) =? Z.of_nat n))
                (seq 0 32) = true) by (vm_compute; reflexivity).
  assert (Hin : In n (seq 0 32)) by (apply in_seq; lia).
  apply (proj1 (forallb_forall _ _) H) in Hin.
  apply andb_true_iff in Hin. destruct Hin as [H1 H2].
  split; [now apply in_charsetb_spec | now apply Z.eqb_eq].
Qed.

(** ** One quantum: five bytes against eight 5-bit groups *)

Module Quantum.
Import Base32.

Local Abbreviation m5 x := (Z.land x 31) (only parsing).

Ltac enum2 H Hx Hy := apply Z.eqb_eq; exact (all2_In _ _ _ _ _ H Hx Hy).
Ltac enum3 H Hx Hy Hz := apply Z.eqb_eq; exact (all3_In _ _ _ _ _ _ _ H Hx Hy Hz).

(** *** Packing the groups of five bytes gives the bytes back *)

Lemma dst0_ok s0 s1 : is_byte s0 -> is_byte s1 ->
  dst0 (m5 (b0 s0)) (m5 (b1 s0 s1)) = s0.
Proof.
  intros H0 H1. apply In_bytes256 in H0, H1.
  assert (H : all2 bytes256 bytes256
            (fun s0 s1 => dst0 (m5 (b0 s0)) (m5 (b1 s0 s1)) =? s0) = true)
    by (vm_compute; reflexivity).
  enum2 H H0 H1.
Qed.

Lemma dst1_ok s0 s1 s2 : is_byte s0 -> is_byte s1 -> is_byte s2 ->
  dst1 (m5 (b1 s0 s1)) (m5 (b2 s1)) (m5 (b3 s1 s2)) = s1.
Proof.
  intros H0 H1 H2. unfold b1, b3.
  assert (Ha : In (hi3 s0) (img hi3 256)) by (apply In_img; unfold is_byte in H0; lia).
  assert (Hc : In (lo4 s2) (img lo4 256)) by (apply In_img; unfold is_byte in H2; lia).
  apply In_bytes256 in H1. revert Ha Hc.
  generalize (hi3 s0) (lo4 s2). intros a c Ha Hc.
  assert (H : all3 (img hi3 256) bytes256 (img lo4 256)
            (fun a s1 c => dst1 (m5 (Z.lor a (lo2 s1))) (m5 (b2 s1))
                                (m5 (Z.lor (hi1 s1) c)) =? s1) = true)
    by (vm_compute; reflexivity).
  enum3 H Ha H1 Hc.
Qed.

Lemma dst2_ok s1 s2 s3 : is_byte s1 -> is_byte s2 -> is_byte s3 ->
  dst2 (m5 (b3 s1 s2)) (m5 (b4 s2 s3)) = s2.
Proof.
  intros H1 H2 H3. unfold b3, b4.
  assert (Ha : In (hi1 s1) (img hi1 256)) by (apply In_img; unfold is_byte in H1; lia).
  assert (Hc : In (lo1 s3) (img lo1 256)) by (apply In_img; unfold is_byte in H3; lia).
  apply In_bytes256 in H2. revert Ha Hc.
  generalize (hi1 s1) (lo1 s3). intros a c Ha Hc.
  assert (H : all3 (img hi1 256) bytes256 (img lo1 256)
            (fun a s2 c => dst2 (m5 (Z.lor a (lo4 s2)))
                                (m5 (Z.lor (hi4 s2) c)) =? s2) = true)
    by (vm_compute; reflexivity).
  enum3 H Ha H2 Hc.
Qed.

Lemma dst3_ok s2 s3 s4 : is_byte s2 -> is_byte s3 -> is_byte s4 ->
  dst3 (m5 (b4 s2 s3)) (m5 (b5 s3)) (m5 (b6 s3 s4)) = s3.
Proof.
  intros H2 H3 H4. unfold b4, b6.
  assert (Ha : In (hi4 s2) (img hi4 256)) by (apply In_img; unfold is_byte in H2; lia).
  assert (Hc : In (lo3 s4) (img lo3 256)) by (apply In_img; unfold is_byte in H4; lia).
  apply In_bytes256 in H3. revert Ha Hc.
  generalize (hi4 s2) (lo3 s4). intros a c Ha Hc.
  assert (H : all3 (img hi4 256) bytes256 (img lo3 256)
            (fun a s3 c => dst3 (m5 (Z.lor a (lo1 s3))) (m5 (b5 s3))
                                (m5 (Z.lor (hi2 s3) c)) =? s3) = true)
    by (vm_compute; reflexivity).
  enum3 H Ha H3 Hc.
Qed.

Lemma dst4_ok s3 s4 : is_byte s3 -> is_byte s4 ->
  dst4 (m5 (b6 s3 s4)) (m5 (b7 s4)) = s4.
Proof.
  intros H3 H4. apply In_bytes256 in H3, H4.
  assert (H : all2 bytes256 bytes256
            (fun s3 s4 => dst4 (m5 (b6 s3 s4)) (m5 (b7 s4)) =? s4) = true)
    by (vm_compute; reflexivity).
  enum2 H H3 H4.
Qed.

Lemma pack_unpack s0 s1 s2 s3 s4 :
  is_byte s0 -> is_byte s1 -> is_byte s2 -> is_byte s3 -> is_byte s4 ->
  pack (map (fun b => m5 b) (unpack s0 s1 s2 s3 s4)) = [s0; s1; s2; s3; s4].
Proof.
  intros H0 H1 H2 H3 H4.
  cbn [unpack map pack length at_ nth].
  rewrite dst0_ok, dst1_ok, dst2_ok, dst3_ok, dst4_ok by assumption.
  reflexivity.
Qed.

(** *** Unpacking the bytes of eight groups gives the groups back *)

Lemma b0_ok d0 d1 : In d0 vals32 -> In d1 vals32 -> m5 (b0 (dst0 d0 d1)) = d0.
Proof.
  intros H0 H1.
  assert (H : all2 vals32 vals32 (fun d0 d1 => m5 (b0 (dst0 d0 d1)) =? d0) = true)
    by (vm_compute; reflexivity).
  enum2 H H0 H1.
Qed.

(** Of [dst1] only the two highest bits enter the second group, and they
    come from [d1]. *)
Lemma lo2_dst1 d1 d2 d3 : In d1 vals32 -> In d2 vals32 -> In d3 vals32 ->
  lo2 (dst1 d1 d2 d3) = lo2 (byte (Z.shiftl d1 6)).
Proof.
  intros H1 H2 H3.
  assert (H : all3 vals32 vals32 vals32
            (fun d1 d2 d3 => lo2 (dst1 d1 d2 d3) =? lo2 (byte (Z.shiftl d1 6))) = true)
    by (vm_compute; reflexivity).
  enum3 H H1 H2 H3.
Qed.

Lemma b1_ok d0 d1 d2 d3 :
  In d0 vals32 -> In d1 vals32 -> In d2 vals32 -> In d3 vals32 ->
  m5 (b1 (dst0 d0 d1) (dst1 d1 d2 d3)) = d1.
Proof.
  intros H0 H1 H2 H3. unfold b1. rewrite lo2_dst1 by assumption.
  assert (H : all2 vals32 vals32
            (fun d0 d1 => m5 (Z.lor (hi3 (dst0 d0 d1)) (lo2 (byte (Z.shiftl d1 6)))) =? d1)
            = true)
    by (vm_compute; reflexivity).
  enum2 H H0 H1.
Qed.

Lemma b2_ok d1 d2 d3 : In d1 vals32 -> In d2 vals32 -> In d3 vals32 ->
  m5 (b2 (dst1 d1 d2 d3)) = d2.
Proof.
  intros H1 H2 H3.
  assert (H : all3 vals32 vals32 vals32
            (fun d1 d2 d3 => m5 (b2 (dst1 d1 d2 d3)) =? d2) = true)
    by (vm_compute; reflexivity).
  enum3 H H1 H2 H3.
Qed.

(** Of [dst1] only the lowest bit enters the fourth group, and that bit
    comes from [d3]. *)
Lemma hi1_dst1 d1 d2 d3 : In d1 vals32 -> In d2 vals32 -> In d3 vals32 ->
  hi1 (dst1 d1 d2 d3) = hi1 (Z.shiftr d3 4).
Proof.
  intros H1 H2 H3.
  assert (H : all3 vals32 vals32 vals32
            (fun d1 d2 d3 => hi1 (dst1 d1 d2 d3) =? hi1 (Z.shiftr d3 4)) = true)
    by (vm_compute; reflexivity).
  enum3 H H1 H2 H3.
Qed.

Lemma b3_ok d1 d2 d3 d4 :
  In d1 vals32 -> In d2 vals32 -> In d3 vals32 -> In d4 vals32 ->
  m5 (b3 (dst1 d1 d2 d3) (dst2 d3 d4)) = d3.
Proof.
  intros H1 H2 H3 H4. unfold b3. rewrite hi1_dst1 by assumption.
  assert (H : all2 vals32 vals32
            (fun d3 d4 => m5 (Z.lor (hi1 (Z.shiftr d3 4)) (lo4 (dst2 d3 d4))) =? d3)
            = true)
    by (vm_compute; reflexivity).
  enum2 H H3 H4.
Qed.

(** Of [dst3] only the highest bit enters the fifth group, and that bit
    comes from [d4]. *)
Lemma lo1_dst3 d4 d5 d6 : In d4 vals32 -> In d5 vals32 -> In d6 vals32 ->
  lo1 (dst3 d4 d5 d6) = lo1 (byte (Z.shiftl d4 7)).
Proof.
  intros H4 H5 H6.
  assert (H : all3 vals32 vals32 vals32
            (fun d4 d5 d6 => lo1 (dst3 d4 d5 d6) =? lo1 (byte (Z.shiftl d4 7))) = true)
    by (vm_compute; reflexivity).
  enum3 H H4 H5 H6.
Qed.

Lemma b4_ok d3 d4 d5 d6 :
  In d3 vals32 -> In d4 vals32 -> In d5 vals32 -> In d6 vals32 ->
  m5 (b4 (dst2 d3 d4) (dst3 d4 d5 d6)) = d4.
Proof.
  intros H3 H4 H5 H6. unfold b4. rewrite lo1_dst3 by assumption.
  assert (H : all2 vals32 vals32
            (fun d3 d4 => m5 (Z.lor (hi4 (dst2 d3 d4)) (lo1 (byte (Z.shiftl d4 7)))) =? d4)
            = true)
    by (vm_compute; reflexivity).
  enum2 H H3 H4.
Qed.

Lemma b5_ok d4 d5 d6 : In d4 vals32 -> In d5 vals32 -> In d6 vals32 ->
  m5 (b5 (dst3 d4 d5 d6)) = d5.
Proof.
  intros H4 H5 H6.
  assert (H : all3 vals32 vals32 vals32
            (fun d4 d5 d6 => m5 (b5 (dst3 d4 d5 d6)) =? d5) = true)
    by (vm_compute; reflexivity).
  enum3 H H4 H5 H6.
Qed.

(** Of [dst3] only the three lowest bits enter the seventh group, and
    they come from [d6]. *)
Lemma hi2_dst3 d4 d5 d6 : In d4 vals32 -> In d5 vals32 -> In d6 vals32 ->
  hi2 (dst3 d4 d5 d6) = hi2 (Z.shiftr d6 3).
Proof.
  intros H4 H5 H6.
  assert (H : all3 vals32 vals32 vals32
            (fun d4 d5 d6 => hi2 (dst3 d4 d5 d6) =? hi2 (Z.shiftr d6 3)) = true)
    by (vm_compute; reflexivity).
  enum3 H H4 H5 H6.
Qed.

Lemma b6_ok d4 d5 d6 d7 :
  In d4 vals32 -> In d5 vals32 -> In d6 vals32 -> In d7 vals32 ->
  m5 (b6 (dst3 d4 d5 d6) (dst4 d6 d7)) = d6.
Proof.
  intros H4 H5 H6 H7. unfold b6. rewrite hi2_dst3 by assumption.
  assert (H : all2 vals32 vals32
            (fun d6 d7 => m5 (Z.lor (hi2 (Z.shiftr d6 3)) (lo3 (dst4 d6 d7))) =? d6)
            = true)
    by (vm_compute; reflexivity).
  enum2 H H6 H7.
Qed.

Lemma b7_ok d6 d7 : In d6 vals32 -> In d7 vals32 -> m5 (b7 (dst4 d6 d7)) = d7.
Proof.
  intros H6 H7.
  assert (H : all2 vals32 vals32 (fun d6 d7 => m5 (b7 (dst4 d6 d7)) =? d7) = true)
    by (vm_compute; reflexivity).
  enum2 H H6 H7.
Qed.

Lemma unpack_pack d0 d1 d2 d3 d4 d5 d6 d7 :
  In d0 vals32 -> In d1 vals32 -> In d2 vals32 -> In d3 vals32 ->
  In d4 vals32 -> In d5 vals32 -> In d6 vals32 -> In d7 vals32 ->
  map (fun b => m5 b)
      (unpack (dst0 d0 d1) (dst1 d1 d2 d3) (dst2 d3 d4) (dst3 d4 d5 d6) (dst4 d6 d7))
  = [d0; d1; d2; d3; d4; d5; d6; d7].
Proof.
  intros H0 H1 H2 H3 H4 H5 H6 H7. cbn [unpack map].
  rewrite b0_ok, b1_ok, b2_ok, b3_ok, b4_ok, b5_ok, b6_ok, b7_ok by assumption.
  reflexivity.
Qed.

End Quantum.

(** ** The codec on identifiers *)

Tactic Notation "list_of_length" ident(l) integer(n) :=
  do n (destruct l as [|? l]; [discriminate|]);
  destruct l; [|discriminate].

Lemma m5_small (d : Z) : 0 <= d < 32 -> Z.land d 31 = d.
Proof.
  intros H. change 31 with (Z.ones 5). rewrite Z.land_ones by lia.
  apply Z.mod_small. lia.
Qed.

Lemma encode_at_m5 (b : Z) : Base32.encode_at (Z.land b 31) = Base32.encode_at b.
Proof.
  unfold Base32.encode_at. rewrite <- Z.land_assoc. reflexivity.
Qed.

Lemma is_byte_Forall_inv (x : Z) (l : list Z) :
  Forall is_byte (x :: l) -> is_byte x /\ Forall is_byte l.
Proof. intros H. inversion H; subst. now split. Qed.

Lemma first_invalid_charset (q : list Z) (off : nat) :
  Forall in_charset q -> Base32.first_invalid q off = None.
Proof.
  intros H. revert off. induction H as [|c q Hc Hq IH]; intros off; simpl.
  - reflexivity.
  - unfold Base32.decodeMap.
    rewrite (dec_invalid_iff c).
    rewrite (proj2 (in_charsetb_spec c) Hc). simpl. apply IH.
Qed.

Lemma stripNewlines_charset (s : list Z) :
  Forall in_charset s -> Base32.stripNewlines s = s.
Proof.
  intros H. unfold Base32.stripNewlines. induction H as [|c s Hc Hs IH]; simpl.
  - reflexivity.
  - destruct (dec_charset c Hc) as [_ [_ [H13 H10]]].
    apply Z.eqb_neq in H13, H10. rewrite H13, H10. simpl. now rewrite IH.
Qed.

Lemma decode_loop_quantum (c0 c1 c2 c3 c4 c5 c6 c7 : Z) (rest : list Z) (off : nat) :
  Forall in_charset [c0; c1; c2; c3; c4; c5; c6; c7] ->
  Base32.decode_loop (c0 :: c1 :: c2 :: c3 :: c4 :: c5 :: c6 :: c7 :: rest) off =
  (Base32.pack (map Base32.decodeMap [c0; c1; c2; c3; c4; c5; c6; c7])
     ++ fst (Base32.decode_loop rest (off + 8)),
   snd (Base32.decode_loop rest (off + 8))).
Proof.
  intros H. cbn [Base32.decode_loop].
  rewrite (first_invalid_charset _ off H). reflexivity.
Qed.

Lemma enc_quantum_charset s0 s1 s2 s3 s4 :
  Forall in_charset (enc_quantum s0 s1 s2 s3 s4).
Proof.
  unfold enc_quantum. apply Forall_forall. intros c Hc.
  apply in_map_iff in Hc. destruct Hc as [b [<- _]]. apply enc_symbol.
Qed.

Lemma dec_enc_quantum s0 s1 s2 s3 s4 :
  is_byte s0 -> is_byte s1 -> is_byte s2 -> is_byte s3 -> is_byte s4 ->
  Base32.pack (map Base32.decodeMap (enc_quantum s0 s1 s2 s3 s4))
  = [s0; s1; s2; s3; s4].
Proof.
  intros H0 H1 H2 H3 H4. unfold enc_quantum. rewrite map_map.
  rewrite (map_ext _ (fun b => Z.land b 31)) by (intros b; apply enc_symbol).
  now apply Quantum.pack_unpack.
Qed.

(** The bytes of one decoded quantum. *)
Lemma decodeMap_vals32 (c : Z) : in_charset c -> In (Base32.decodeMap c) vals32.
Proof. intros H. apply In_vals32. now apply dec_charset. Qed.

Lemma enc_dec_quantum c0 c1 c2 c3 c4 c5 c6 c7 :
  Forall in_charset [c0; c1; c2; c3; c4; c5; c6; c7] ->
  match Base32.pack (map Base32.decodeMap [c0; c1; c2; c3; c4; c5; c6; c7]) with
  | [s0; s1; s2; s3; s4] =>
      enc_quantum s0 s1 s2 s3 s4 = [c0; c1; c2; c3; c4; c5; c6; c7]
      /\ Forall is_byte [s0; s1; s2; s3; s4]
  | _ => False
  end.
Proof.
  intros H. cbn [map Base32.pack length at_ nth].
  assert (Hin : forall c, In c [c0; c1; c2; c3; c4; c5; c6; c7] -> in_charset c)
    by (apply Forall_forall; exact H).
  assert (E : forall c, In c [c0; c1; c2; c3; c4; c5; c6; c7] ->
                        Base32.encode_at (Base32.decodeMap c) = c).
  { intros c Hc. apply (dec_charset c (Hin c Hc)). }
  assert (V : forall c, In c [c0; c1; c2; c3; c4; c5; c6; c7] ->
                        In (Base32.decodeMap c) vals32).
  { intros c Hc. apply decodeMap_vals32, Hin, Hc. }
  split.
  - unfold enc_quantum.
    rewrite <- (map_ext (fun b => Base32.encode_at (Z.land b 31)) Base32.encode_at)
      by (intros b; apply encode_at_m5).
    rewrite <- (map_map (fun b => Z.land b 31) Base32.encode_at).
    rewrite Quantum.unpack_pack by (apply V; cbn [In]; tauto).
    cbn [map]. rewrite !E by (cbn [In]; tauto). reflexivity.
  - assert (B0 : forall d0 d1, In d0 vals32 -> In d1 vals32 ->
                 is_byte (Base32.dst0 d0 d1)).
    { intros d0 d1 G0 G1.
      assert (K : all2 vals32 vals32
                (fun d0 d1 => is_byteb (Base32.dst0 d0 d1)) = true)
        by (vm_compute; reflexivity).
      pose proof (all2_In _ _ _ _ _ K G0 G1) as K'.
      unfold is_byteb in K'. apply andb_true_iff in K'. unfold is_byte. lia. }
    assert (B1 : forall d1 d2 d3, In d1 vals32 -> In d2 vals32 -> In d3 vals32 ->
                 is_byte (Base32.dst1 d1 d2 d3) /\ is_byte (Base32.dst3 d1 d2 d3)).
    { intros d1 d2 d3 G1 G2 G3.
      assert (K : all3 vals32 vals32 vals32
                (fun d1 d2 d3 => is_byteb (Base32.dst1 d1 d2 d3)
                                 && is_byteb (Base32.dst3 d1 d2 d3)) = true)
        by (vm_compute; reflexivity).
      pose proof (all3_In _ _ _ _ _ _ _ K G1 G2 G3) as K'.
      unfold is_byteb in K'. rewrite !andb_true_iff in K'. unfold is_byte. lia. }
    assert (B2 : forall d3 d4, In d3 vals32 -> In d4 vals32 ->
                 is_byte (Base32.dst2 d3 d4) /\ is_byte (Base32.dst4 d3 d4)).
    { intros d3 d4 G3 G4.
      assert (K : all2 vals32 vals32
                (fun d3 d4 => is_byteb (Base32.dst2 d3 d4)
                              && is_byteb (Base32.dst4 d3 d4)) = true)
        by (vm_compute; reflexivity).
      pose proof (all2_In _ _ _ _ _ K G3 G4) as K'.
      unfold is_byteb in K'. rewrite !andb_true_iff in K'. unfold is_byte. lia. }
    assert (V0 : In (Base32.decodeMap c0) vals32) by (apply V; cbn [In]; tauto).
    assert (V1 : In (Base32.decodeMap c1) vals32) by (apply V; cbn [In]; tauto).
    assert (V2 : In (Base32.decodeMap c2) vals32) by (apply V; cbn [In]; tauto).
    assert (V3 : In (Base32.decodeMap c3) vals32) by (apply V; cbn [In]; tauto).
    assert (V4 : In (Base32.decodeMap c4) vals32) by (apply V; cbn [In]; tauto).
    assert (V5 : In (Base32.decodeMap c5) vals32) by (apply V; cbn [In]; tauto).
    assert (V6 : In (Base32.decodeMap c6) vals32) by (apply V; cbn [In]; tauto).
    assert (V7 : In (Base32.decodeMap c7) vals32) by (apply V; cbn [In]; tauto).
    apply Forall_cons; [apply B0; assumption|].
    apply Forall_cons; [apply B1; assumption|].
    apply Forall_cons; [apply B2; assumption|].
    apply Forall_cons; [apply B1; assumption|].
    apply Forall_cons; [apply B2; assumption|].
    apply Forall_nil.
Qed.

Lemma copy_same_length (dst src : list Z) :
  length dst = length src -> copy dst src = src.
Proof.
  intros H. unfold copy. rewrite H, firstn_all.
  rewrite skipn_all2 by lia. apply app_nil_r.
Qed.

Lemma Encode_length (B : list Z) :
  length B = rawLen -> length (Base32.Encode B) = encodedLen.
Proof. intros H. list_of_length B 15. reflexivity. Qed.

Lemma Encode_charset (B : list Z) :
  length B = rawLen -> Forall in_charset (Base32.Encode B).
Proof.
  intros H. list_of_length B 15. cbn [Base32.Encode].
  repeat (apply Forall_app; split);
    first [ apply enc_quantum_charset | apply Forall_nil ].
Qed.

(** [Decode] undoes [Encode] on the bytes of an identifier. *)
Lemma Decode_Encode (B : list Z) :
  wf_ID B -> Base32.Decode (Base32.Encode B) = (B, None).
Proof.
  intros [HL HB]. unfold Base32.Decode.
  rewrite stripNewlines_charset by now apply Encode_charset.
  list_of_length B 15.
  repeat match goal with
         | H : Forall is_byte (_ :: _) |- _ =>
             apply is_byte_Forall_inv in H; destruct H as [? H]
         end.
  cbn [Base32.Encode app].
  change (map Base32.encode_at (Base32.unpack ?a ?b ?c ?d ?e))
    with (enc_quantum a b c d e).
  repeat match goal with
         | |- context [enc_quantum ?a ?b ?c ?d ?e] =>
             let q := fresh "q" in
             let Hq := fresh "Hq" in
             let Eq := fresh "Eq" in
             pose proof (enc_quantum_charset a b c d e) as Hq;
             pose proof (dec_enc_quantum a b c d e) as Eq;
             remember (enc_quantum a b c d e) as q eqn:Heqq;
             assert (length q = 8%nat) by (subst q; reflexivity);
             clear Heqq
         end.
  list_of_length q 8. list_of_length q0 8. list_of_length q1 8.
  cbn [app].
  rewrite !decode_loop_quantum by assumption.
  rewrite Eq, Eq0, Eq1 by assumption. reflexivity.
Qed.

(** [Decode] of 24 characters of the alphabet succeeds with 15 bytes, which
    [Encode] maps back to the characters. *)
Lemma Decode_text (S : list Z) :
  length S = encodedLen -> Forall in_charset S ->
  exists B, Base32.Decode S = (B, None) /\ wf_ID B /\ Base32.Encode B = S.
Proof.
  intros HL HS. unfold Base32.Decode.
  rewrite stripNewlines_charset by assumption.
  list_of_length S 24.
  match goal with
  | H : Forall in_charset (?c0 :: ?c1 :: ?c2 :: ?c3 :: ?c4 :: ?c5 :: ?c6 :: ?c7 :: ?r) |- _ =>
      change (Forall in_charset ([c0; c1; c2; c3; c4; c5; c6; c7] ++ r)) in H;
      apply Forall_app in H; destruct H as [H1 H]
  end.
  match goal with
  | H : Forall in_charset (?c0 :: ?c1 :: ?c2 :: ?c3 :: ?c4 :: ?c5 :: ?c6 :: ?c7 :: ?r) |- _ =>
      change (Forall in_charset ([c0; c1; c2; c3; c4; c5; c6; c7] ++ r)) in H;
      apply Forall_app in H; destruct H as [H2 H3]
  end.
  rewrite !decode_loop_quantum by assumption.
  pose proof (enc_dec_quantum _ _ _ _ _ _ _ _ H1) as E1.
  pose proof (enc_dec_quantum _ _ _ _ _ _ _ _ H2) as E2.
  pose proof (enc_dec_quantum _ _ _ _ _ _ _ _ H3) as E3.
  destruct (Base32.pack (map Base32.decodeMap _)) as [|a0 [|a1 [|a2 [|a3 [|a4 [|? ?]]]]]] in E1 |- *;
    try contradiction.
  destruct (Base32.pack (map Base32.decodeMap _)) as [|e0 [|e1 [|e2 [|e3 [|e4 [|? ?]]]]]] in E2 |- *;
    try contradiction.
  destruct (Base32.pack (map Base32.decodeMap _)) as [|f0 [|f1 [|f2 [|f3 [|f4 [|? ?]]]]]] in E3 |- *;
    try contradiction.
  destruct E1 as [E1 W1], E2 as [E2 W2], E3 as [E3 W3].
  eexists. split; [cbn [Base32.decode_loop fst snd app]; reflexivity|].
  split.
  - split; [reflexivity|].
    change (Forall is_byte ([a0; a1; a2; a3; a4] ++ [e0; e1; e2; e3; e4]
                            ++ [f0; f1; f2; f3; f4])).
    repeat (apply Forall_app; split); assumption.
  - cbn [Base32.Encode app].
    change (map Base32.encode_at (Base32.unpack ?a ?b ?c ?d ?e))
      with (enc_quantum a b c d e).
    rewrite E1, E2, E3. reflexivity.
Qed.

(** ** Text validation *)

Lemma forallb_in_charset (text : list Z) :
  forallb in_charsetb text = true <-> Forall in_charset text.
Proof.
  rewrite forallb_forall, Forall_forall. split; intros H c Hc.
  - apply in_charsetb_spec. now apply H.
  - apply in_charsetb_spec. now apply H.
Qed.

Lemma valid_textb_spec (text : list Z) :
  valid_textb text = true <-> valid_text text.
Proof.
  unfold valid_textb, valid_text.
  rewrite andb_true_iff, Nat.eqb_eq, forallb_in_charset. reflexivity.
Qed.

(** The loop of [UnmarshalText] finds a character exactly when some
    character is outside the alphabet. *)
Lemma invalid_scan (text : list Z) :
  existsb (fun c => dec_at c =? 255) text = negb (forallb in_charsetb text).
Proof.
  induction text as [|c t IH]; simpl; [reflexivity|].
  rewrite IH, dec_invalid_iff. now destruct (in_charsetb c).
Qed.

Lemma UnmarshalText_invalid (id : ID) (text : list Z) :
  ~ valid_text text -> UnmarshalText id text = Done (nilID, Some ErrInvalidID).
Proof.
  intros H. unfold UnmarshalText.
  destruct (length text =? encodedLen)%nat eqn:HL; [|reflexivity].
  cbn [negb]. rewrite invalid_scan.
  destruct (forallb in_charsetb text) eqn:HF; [|reflexivity].
  exfalso. apply H. apply valid_textb_spec. unfold valid_textb.
  now rewrite HL, HF.
Qed.

Lemma UnmarshalText_valid (id : ID) (text : list Z) :
  length id = rawLen -> valid_text text ->
  exists r, UnmarshalText id text = Done (r, None)
            /\ Base32.Decode text = (r, None)
            /\ wf_ID r /\ Base32.Encode r = text.
Proof.
  intros Hid [HL HF]. unfold UnmarshalText.
  rewrite HL, Nat.eqb_refl. cbn [negb]. rewrite invalid_scan.
  rewrite (proj2 (forallb_in_charset text) HF). cbn [negb].
  destruct (Decode_text text HL HF) as [B [HD [HW HE]]].
  exists B. unfold decode. rewrite HD. cbn [fst snd].
  destruct HW as [HBL HBB]. rewrite HBL, Hid, Nat.leb_refl.
  rewrite copy_same_length by (rewrite HBL, Hid; reflexivity).
  repeat split; assumption.
Qed.

Lemma encode_ID (dst : list Z) (B : ID) :
  length dst = encodedLen -> length B = rawLen -> encode dst B = Base32.Encode B.
Proof.
  intros Hd HB. unfold encode. apply copy_same_length.
  now rewrite Encode_length.
Qed.

Lemma String_ID (B : ID) : length B = rawLen -> String B = Base32.Encode B.
Proof. intros HB. unfold String. now apply encode_ID. Qed.

(** ** Round trip of the codec *)

(** C1.  The base-32 codec round-trips: decoding the encoding of any 15
    bytes [B] gives [B] back, and for any 24 characters [S] of the alphabet
    decoding succeeds and encoding the decoded bytes gives [S] back. *)
Theorem codec_round_trip (B S : list Z) (id : ID) (dst : list Z) :
  wf_ID B -> valid_text S -> length id = rawLen -> length dst = encodedLen ->
  decode id (encode dst B) = Done (B, rawLen, None)
  /\ exists B', decode id S = Done (B', rawLen, None) /\ encode dst B' = S.
Proof.
  intros HB [HL HS] Hid Hdst. split.
  - rewrite encode_ID by (assumption || apply HB).
    unfold decode. rewrite (Decode_Encode B HB). cbn [fst snd].
    destruct HB as [HBL _]. rewrite HBL, Hid, Nat.leb_refl.
    rewrite copy_same_length by (rewrite HBL, Hid; reflexivity).
    reflexivity.
  - destruct (Decode_text S HL HS) as [B' [HD [[HBL HBB] HE]]].
    exists B'. split.
    + unfold decode. rewrite HD. cbn [fst snd].
      rewrite HBL, Hid, Nat.leb_refl.
      rewrite copy_same_length by (rewrite HBL, Hid; reflexivity).
      reflexivity.
    + rewrite encode_ID by assumption. exact HE.
Qed.

Lemma is_byteb_spec (b : Z) : is_byteb b = true -> is_byte b.
Proof. unfold is_byteb, is_byte. rewrite andb_true_iff. lia. Qed.

Lemma wf_ID_check (id : ID) :
  (length id =? rawLen)%nat && forallb is_byteb id = true -> wf_ID id.
Proof.
  rewrite andb_true_iff, Nat.eqb_eq, forallb_forall. intros [HL HB].
  split; [assumption|]. apply Forall_forall. intros b Hb.
  now apply is_byteb_spec, HB.
Qed.

Lemma codec_round_trip_witness :
  decode nilID (encode (repeat 0 encodedLen) sample_id) = Done (sample_id, rawLen, None)
  /\ exists B', decode nilID sample_text = Done (B', rawLen, None)
                /\ encode (repeat 0 encodedLen) B' = sample_text.
Proof.
  apply (codec_round_trip sample_id sample_text nilID (repeat 0 encodedLen)).
  - apply wf_ID_check. vm_compute. reflexivity.
  - apply valid_textb_spec. vm_compute. reflexivity.
  - reflexivity.
  - reflexivity.
Defined.

(** ** Rejection of malformed input *)

Lemma copy_nilID (b : list Z) : length b = rawLen -> copy nilID b = b.
Proof. intros H. apply copy_same_length. now rewrite H. Qed.

(** C4.  Length rejection: [FromBytes] succeeds on 15 bytes, which it
    copies verbatim, and returns an error for every other length;
    [FromString] and [UnmarshalText] return an error for every text whose
    length is not 24. *)
Theorem length_rejection (b15 b s : list Z) (id : ID) :
  length b15 = rawLen -> length b <> rawLen -> length s <> encodedLen ->
  FromBytes b15 = (b15, None)
  /\ FromBytes b = (nilID, Some ErrInvalidID)
  /\ FromString s = Done (nilID, Some ErrInvalidID)
  /\ UnmarshalText id s = Done (nilID, Some ErrInvalidID).
Proof.
  intros H15 Hb Hs. repeat split.
  - unfold FromBytes. rewrite H15, Nat.eqb_refl. cbn [negb].
    now rewrite copy_nilID.
  - unfold FromBytes. apply Nat.eqb_neq in Hb. now rewrite Hb.
  - unfold FromString, UnmarshalText. apply Nat.eqb_neq in Hs. now rewrite Hs.
  - unfold UnmarshalText. apply Nat.eqb_neq in Hs. now rewrite Hs.
Qed.

Lemma length_rejection_witness :
  FromBytes sample_id = (sample_id, None)
  /\ FromBytes (sample_id ++ [0]) = (nilID, Some ErrInvalidID)
  /\ FromString (0 :: sample_text) = Done (nilID, Some ErrInvalidID)
  /\ UnmarshalText sample_id (0 :: sample_text) = Done (nilID, Some ErrInvalidID).
Proof.
  apply (length_rejection sample_id (sample_id ++ [0]) (0 :: sample_text) sample_id).
  - reflexivity.
  - simpl. unfold rawLen. lia.
  - simpl. unfold encodedLen. lia.
Defined.

(** C5.  Character rejection: a text of 24 characters of which at least
    one, at any position, is outside the alphabet fails to decode. *)
Theorem character_rejection (id : ID) (text : list Z) :
  length text = encodedLen -> Exists (fun c => ~ in_charset c) text ->
  UnmarshalText id text = Done (nilID, Some ErrInvalidID)
  /\ FromString text = Done (nilID, Some ErrInvalidID).
Proof.
  intros HL HE.
  assert (Hnv : ~ valid_text text).
  { intros [_ HF]. apply Exists_exists in HE. destruct HE as [c [Hc Hn]].
    apply Hn. exact (proj1 (Forall_forall _ _) HF c Hc). }
  split; [|unfold FromString]; now apply UnmarshalText_invalid.
Qed.

Lemma character_rejection_witness :
  UnmarshalText sample_id bad_text = Done (nilID, Some ErrInvalidID)
  /\ FromString bad_text = Done (nilID, Some ErrInvalidID).
Proof.
  apply (character_rejection sample_id bad_text).
  - reflexivity.
  - unfold bad_text. do 23 apply Exists_cons_tl. apply Exists_cons_hd.
    intros H. apply in_charsetb_spec in H. vm_compute in H. discriminate H.
Defined.

(** ** The documented test vector *)

(** C6, as stated, fails: the text of the vector has 20 characters, so
    [FromString] rejects it and yields no bytes at all. *)
Lemma vector_rejected :
  length vector_text = 20%nat
  /\ FromString vector_text = Done (nilID, Some ErrInvalidID)
  /\ ~ (exists id, FromString vector_text = Done (id, None)
                   /\ firstn 12 id = vector_bytes).
Proof.
  split; [reflexivity|]. split; [reflexivity|].
  intros [id [H _]]. vm_compute in H. discriminate H.
Qed.

(** C6, amended.  The 20-character text is rejected for its length;
    followed by four characters [0] it decodes to the twelve bytes of the
    vector followed by three zero bytes, and that identifier encodes to
    the same 24 characters. *)
Theorem vector_full_width :
  FromString vector_text = Done (nilID, Some ErrInvalidID)
  /\ FromString (vector_text ++ [48; 48; 48; 48])
     = Done (vector_bytes ++ [0; 0; 0], None)
  /\ String (vector_bytes ++ [0; 0; 0]) = vector_text ++ [48; 48; 48; 48].
Proof. repeat split; vm_compute; reflexivity. Qed.

(** ** JSON *)

Lemma list_eqb_spec (a b : list Z) : list_eqb a b = true <-> a = b.
Proof.
  unfold list_eqb. destruct (list_eq_dec Z.eq_dec a b); split; intros H;
    congruence.
Qed.

Lemma UnmarshalText_no_panic (id : ID) (text : list Z) :
  length id = rawLen -> UnmarshalText id text <> Panic.
Proof.
  intros Hid. destruct (valid_textb text) eqn:Hv.
  - apply valid_textb_spec in Hv.
    destruct (UnmarshalText_valid id text Hid Hv) as [r [H _]].
    rewrite H. discriminate.
  - rewrite UnmarshalText_invalid; [discriminate|].
    intros Hc. apply valid_textb_spec in Hc. congruence.
Qed.

(** C10.  [UnmarshalJSON] panics exactly on the inputs shorter than two
    bytes, for which the slice [text[1 : len(text)-1]] is out of range; on
    the token [null] and on every input of at least two bytes it returns. *)
Theorem UnmarshalJSON_panics (id : ID) (text : list Z) :
  length id = rawLen ->
  (UnmarshalJSON id text = Panic <-> (length text < 2)%nat)
  /\ slice [] 1 (-1) = Panic
  /\ (forall c, slice [c] 1 0 = Panic)
  /\ (length null_token = 4)%nat.
Proof.
  intros Hid. split; [|repeat split]. unfold UnmarshalJSON.
  destruct (list_eqb text null_token) eqn:Hn.
  - apply list_eqb_spec in Hn. subst text. split; [discriminate|].
    simpl. lia.
  - unfold slice.
    destruct ((0 <=? 1) && (1 <=? Z.of_nat (length text) - 1)
              && (Z.of_nat (length text) - 1 <=? Z.of_nat (length text))) eqn:Hs.
    + split.
      * intros H. exfalso. revert H. now apply UnmarshalText_no_panic.
      * intros H. rewrite !andb_true_iff in Hs. lia.
    + split; [intros _|reflexivity].
      rewrite !andb_false_iff in Hs. lia.
Qed.

Lemma UnmarshalJSON_panics_witness :
  (UnmarshalJSON nilID [quote] = Panic <-> (length [quote] < 2)%nat)
  /\ slice [] 1 (-1) = Panic
  /\ (forall c, slice [c] 1 0 = Panic)
  /\ (length null_token = 4)%nat.
Proof. apply (UnmarshalJSON_panics nilID [quote]). reflexivity. Defined.

Lemma IsNil_spec (id : ID) : IsNil id = true <-> id = nilID.
Proof. unfold IsNil. apply list_eqb_spec. Qed.

Lemma all_zero_nilID (id : ID) :
  length id = rawLen -> (Forall (fun b => b = 0) id <-> id = nilID).
Proof.
  intros HL. split.
  - intros H. list_of_length id 15.
    repeat match goal with
           | H : Forall _ (_ :: _) |- _ => inversion H; subst; clear H
           end.
    reflexivity.
  - intros ->. unfold nilID, rawLen. simpl. repeat constructor.
Qed.

(** The JSON form of an identifier that is not nil: the 24 characters
    between two quotes. *)
Lemma MarshalJSON_quoted (id : ID) :
  length id = rawLen -> id <> nilID ->
  MarshalJSON id = (quote :: String id ++ [quote], None).
Proof.
  intros HL Hn. unfold MarshalJSON.
  destruct (list_eqb id nilID) eqn:E; [apply list_eqb_spec in E; contradiction|].
  cbv beta iota zeta. unfold String.
  rewrite !encode_ID by (assumption || reflexivity).
  pose proof (Encode_length id HL) as HE.
  remember (Base32.Encode id) as t eqn:Ht. clear Ht.
  list_of_length t 24. reflexivity.
Qed.

(** C8.  Nil handling: [IsNil] holds exactly of the identifier whose 15
    bytes are all zero; the JSON form of the nil identifier is the unquoted
    4-character token [null], that of any other identifier is its 24
    characters between quotes; and parsing the token [null] yields an
    identifier for which [IsNil] holds. *)
Theorem nil_handling (id id0 : ID) :
  wf_ID id ->
  (IsNil id = true <-> Forall (fun b => b = 0) id)
  /\ MarshalJSON nilID = (null_token, None)
  /\ length null_token = 4%nat
  /\ ~ In quote null_token
  /\ (IsNil id = false ->
      MarshalJSON id = (quote :: String id ++ [quote], None)
      /\ length (String id) = encodedLen
      /\ Forall in_charset (String id))
  /\ (exists r, UnmarshalJSON id0 null_token = Done (r, None) /\ IsNil r = true).
Proof.
  intros [HL HB]. repeat split.
  - intros H. apply all_zero_nilID; [assumption|]. now apply IsNil_spec.
  - intros H. apply IsNil_spec. now apply all_zero_nilID.
  - intros H. vm_compute in H. intuition discriminate.
  - apply MarshalJSON_quoted; [assumption|].
    intros E. apply IsNil_spec in E. congruence.
  - rewrite String_ID by assumption. now apply Encode_length.
  - rewrite String_ID by assumption. now apply Encode_charset.
  - exists nilID. split; reflexivity.
Qed.

Lemma nil_handling_witness :
  (IsNil sample_id = true <-> Forall (fun b => b = 0) sample_id)
  /\ MarshalJSON nilID = (null_token, None)
  /\ length null_token = 4%nat
  /\ ~ In quote null_token
  /\ (IsNil sample_id = false ->
      MarshalJSON sample_id = (quote :: String sample_id ++ [quote], None)
      /\ length (String sample_id) = encodedLen
      /\ Forall in_charset (String sample_id))
  /\ (exists r, UnmarshalJSON sample_id null_token = Done (r, None) /\ IsNil r = true).
Proof.
  apply (nil_handling sample_id sample_id).
  apply wf_ID_check. vm_compute. reflexivity.
Defined.

(** ** Comparison *)

Lemma bytes_Compare_lt (a b : list Z) : bytes_Compare a b = -1 <-> lex_lt a b.
Proof.
  revert b. induction a as [|x a IH]; intros [|y b]; simpl.
  - split; [discriminate | intros H; inversion H].
  - split; [intros _; constructor | reflexivity].
  - split; [discriminate | intros H; inversion H].
  - destruct (x <? y) eqn:Hxy.
    + apply Z.ltb_lt in Hxy. split; [intros _; now constructor | reflexivity].
    + apply Z.ltb_ge in Hxy. destruct (y <? x) eqn:Hyx.
      * apply Z.ltb_lt in Hyx. split; [discriminate|].
        intros H. inversion H; subst; lia.
      * apply Z.ltb_ge in Hyx. assert (x = y) by lia. subst y.
        rewrite IH. split; [now constructor|].
        intros H. inversion H; subst; [lia | assumption].
Qed.

Lemma bytes_Compare_eq (a b : list Z) : bytes_Compare a b = 0 <-> a = b.
Proof.
  revert b. induction a as [|x a IH]; intros [|y b]; simpl;
    try (split; [reflexivity || discriminate | reflexivity || discriminate]).
  destruct (x <? y) eqn:Hxy.
  - apply Z.ltb_lt in Hxy. split; [discriminate | intros H; inversion H; lia].
  - apply Z.ltb_ge in Hxy. destruct (y <? x) eqn:Hyx.
    + apply Z.ltb_lt in Hyx. split; [discriminate | intros H; inversion H; lia].
    + apply Z.ltb_ge in Hyx. assert (x = y) by lia. subst y.
      rewrite IH. split; [intros ->; reflexivity | intros H; now inversion H].
Qed.

Lemma bytes_Compare_antisym (a b : list Z) :
  bytes_Compare b a = - bytes_Compare a b.
Proof.
  revert b. induction a as [|x a IH]; intros [|y b]; simpl; try reflexivity.
  destruct (x <? y) eqn:Hxy, (y <? x) eqn:Hyx; try reflexivity.
  - apply Z.ltb_lt in Hxy, Hyx. lia.
  - apply IH.
Qed.

Lemma bytes_Compare_gt (a b : list Z) : bytes_Compare a b = 1 <-> lex_lt b a.
Proof.
  rewrite <- bytes_Compare_lt, (bytes_Compare_antisym a b). lia.
Qed.

Lemma firstn_5_app (p t : list Z) : length p = 5%nat -> firstn 5 (p ++ t) = p.
Proof.
  intros H. list_of_length p 5. reflexivity.
Qed.

(** C2.  [Compare] is the byte-lexicographic comparison of the first five
    bytes of the two identifiers; identifiers that agree on these bytes
    compare equal whatever their ten trailing bytes are. *)
Theorem compare_prefix (a b : ID) (ta tb : list Z) :
  wf_ID a -> wf_ID b -> length ta = 10%nat -> length tb = 10%nat ->
  (Compare a b = -1 <-> lex_lt (firstn 5 a) (firstn 5 b))
  /\ (Compare a b = 0 <-> firstn 5 a = firstn 5 b)
  /\ (Compare a b = 1 <-> lex_lt (firstn 5 b) (firstn 5 a))
  /\ Compare (firstn 5 a ++ ta) (firstn 5 a ++ tb) = 0.
Proof.
  intros [Ha _] _ _ _. unfold Compare. repeat split.
  - apply bytes_Compare_lt.
  - apply bytes_Compare_lt.
  - apply bytes_Compare_eq.
  - apply bytes_Compare_eq.
  - apply bytes_Compare_gt.
  - apply bytes_Compare_gt.
  - assert (H5 : length (firstn 5 a) = 5%nat)
      by (rewrite length_firstn, Ha; reflexivity).
    rewrite !firstn_5_app by assumption. now apply bytes_Compare_eq.
Qed.

Lemma compare_prefix_witness :
  (Compare sample_id sample_id' = -1
   <-> lex_lt (firstn 5 sample_id) (firstn 5 sample_id'))
  /\ (Compare sample_id sample_id' = 0
      <-> firstn 5 sample_id = firstn 5 sample_id')
  /\ (Compare sample_id sample_id' = 1
      <-> lex_lt (firstn 5 sample_id') (firstn 5 sample_id))
  /\ Compare (firstn 5 sample_id ++ skipn 5 sample_id)
             (firstn 5 sample_id ++ skipn 5 sample_id') = 0.
Proof.
  apply (compare_prefix sample_id sample_id' (skipn 5 sample_id) (skipn 5 sample_id')).
  - apply wf_ID_check. vm_compute. reflexivity.
  - apply wf_ID_check. vm_compute. reflexivity.
  - reflexivity.
  - reflexivity.
Defined.

(** ** Big-endian fields *)

Lemma be_val_bound (l : list Z) :
  Forall is_byte l -> 0 <= be_val l < 256 ^ Z.of_nat (length l).
Proof.
  induction 1 as [|x t Hx Ht IH]; [simpl; lia|].
  cbn [be_val length]. rewrite Nat2Z.inj_succ, Z.pow_succ_r by lia.
  unfold is_byte in Hx.
  assert (0 < 256 ^ Z.of_nat (length t)) by (apply Z.pow_pos_nonneg; lia).
  nia.
Qed.

(** On sequences of one length the lexicographic comparison is the
    comparison of the numbers they denote. *)
Lemma bytes_Compare_be (a b : list Z) :
  length a = length b -> Forall is_byte a -> Forall is_byte b ->
  bytes_Compare a b = Z.sgn (be_val a - be_val b).
Proof.
  revert b. induction a as [|x a IH]; intros [|y b] HL Ha Hb;
    try discriminate HL; [reflexivity|].
  apply is_byte_Forall_inv in Ha, Hb. destruct Ha as [Hx Ha], Hb as [Hy Hb].
  injection HL as HL. cbn [bytes_Compare be_val]. rewrite <- HL.
  pose proof (be_val_bound a Ha) as Ba. pose proof (be_val_bound b Hb) as Bb.
  rewrite <- HL in Bb. unfold is_byte in Hx, Hy.
  assert (0 < 256 ^ Z.of_nat (length a)) by (apply Z.pow_pos_nonneg; lia).
  destruct (x <? y) eqn:Hxy.
  - apply Z.ltb_lt in Hxy. symmetry. apply Z.sgn_neg. nia.
  - apply Z.ltb_ge in Hxy. destruct (y <? x) eqn:Hyx.
    + apply Z.ltb_lt in Hyx. symmetry. apply Z.sgn_pos. nia.
    + apply Z.ltb_ge in Hyx. assert (x = y) by lia. subst y.
      rewrite (IH b HL Ha Hb). f_equal. lia.
Qed.

(** Joining a value with lower bits that are all clear is an addition. *)
Lemma lor_add (x y k : Z) :
  0 <= k -> 0 <= y < 2 ^ k -> x mod 2 ^ k = 0 -> Z.lor x y = x + y.
Proof.
  intros Hk Hy Hx. rewrite <- Z.add_lor_land.
  assert (E : Z.land x y = 0); [|rewrite E; lia].
  apply Z.bits_inj'. intros n Hn. rewrite Z.land_spec, Z.bits_0.
  destruct (Z_lt_dec n k) as [Hlt|Hge].
  - rewrite <- (Z.mod_pow2_bits_low x k n) by lia.
    rewrite Hx, Z.bits_0. reflexivity.
  - rewrite <- (Z.mod_small y (2 ^ k)) by lia.
    rewrite Z.mod_pow2_bits_high by lia. apply andb_false_r.
Qed.

(** The 48-bit number that [Timestamp] and [Random] read from six bytes. *)
Lemma be48 (c0 c1 c2 c3 c4 c5 : Z) :
  is_byte c0 -> is_byte c1 -> is_byte c2 -> is_byte c3 -> is_byte c4 ->
  is_byte c5 ->
  Z.lor (Z.lor (Z.lor (Z.lor (Z.lor
    (Z.shiftl c0 40) (Z.shiftl c1 32)) (Z.shiftl c2 24))
    (Z.shiftl c3 16)) (Z.shiftl c4 8)) c5
  = be_val [c0; c1; c2; c3; c4; c5].
Proof.
  unfold is_byte. intros H0 H1 H2 H3 H4 H5.
  rewrite !Z.shiftl_mul_pow2 by lia.
  rewrite (lor_add (c0 * 2 ^ 40) _ 40) by (try apply Z_mod_mult; lia).
  rewrite (lor_add _ (c2 * 2 ^ 24) 32) by (Z.div_mod_to_equations; lia).
  rewrite (lor_add _ (c3 * 2 ^ 16) 24) by (Z.div_mod_to_equations; lia).
  rewrite (lor_add _ (c4 * 2 ^ 8) 16) by (Z.div_mod_to_equations; lia).
  rewrite (lor_add _ c5 8) by (Z.div_mod_to_equations; lia).
  cbn [be_val length]. lia.
Qed.

Lemma byte_is_byte (x : Z) : is_byte (byte x).
Proof. unfold is_byte, byte. apply Z.mod_pos_bound. lia. Qed.

(** The bytes [NewWithTimestamp] writes. *)
Lemma NewWithTimestamp_bytes (rtsig : list Z) (rv ts : Z) :
  NewWithTimestamp rtsig rv ts =
  [ byte (Z.shiftr ts 40); byte (Z.shiftr ts 32); byte (Z.shiftr ts 24);
    byte (Z.shiftr ts 16); byte (Z.shiftr ts 8); byte ts;
    at_ rtsig 0;
    byte (Z.shiftr rv 56); byte (Z.shiftr rv 48); byte (Z.shiftr rv 40);
    byte (Z.shiftr rv 32); byte (Z.shiftr rv 24); byte (Z.shiftr rv 16);
    byte (Z.shiftr rv 8); byte rv ].
Proof. reflexivity. Qed.

Lemma prefix_be (rtsig : list Z) (rv ts : Z) :
  be_val (firstn 5 (NewWithTimestamp rtsig rv ts)) = prefix40 ts.
Proof.
  rewrite NewWithTimestamp_bytes. cbn [firstn be_val length].
  unfold prefix40, byte. rewrite !Z.shiftr_div_pow2 by lia.
  change (256 ^ Z.of_nat 4) with 4294967296.
  change (256 ^ Z.of_nat 3) with 16777216.
  change (256 ^ Z.of_nat 2) with 65536.
  change (256 ^ Z.of_nat 1) with 256.
  change (256 ^ Z.of_nat 0) with 1.
  Z.div_mod_to_equations. lia.
Qed.

Lemma prefix_is_bytes (rtsig : list Z) (rv ts : Z) :
  Forall is_byte (firstn 5 (NewWithTimestamp rtsig rv ts)).
Proof.
  rewrite NewWithTimestamp_bytes. cbn [firstn].
  repeat (apply Forall_cons; [apply byte_is_byte|]). apply Forall_nil.
Qed.

(** [Compare] on generated identifiers is the comparison of the leading 40
    bits of their truncated timestamps. *)
Lemma Compare_generated (rtsig : list Z) (rv1 rv2 ts1 ts2 : Z) :
  Compare (NewWithTimestamp rtsig rv1 ts1) (NewWithTimestamp rtsig rv2 ts2)
  = Z.sgn (prefix40 ts1 - prefix40 ts2).
Proof.
  unfold Compare. rewrite bytes_Compare_be.
  - now rewrite !prefix_be.
  - reflexivity.
  - apply prefix_is_bytes.
  - apply prefix_is_bytes.
Qed.

(** ** Chronological order and sorting *)

Lemma Compare_antisym (a b : ID) : Compare b a = - Compare a b.
Proof. unfold Compare. apply bytes_Compare_antisym. Qed.

(** The insertion sort on three identifiers given in the order last,
    first, second. *)
Lemma Sort_three (a b c : ID) :
  Compare a b = -1 -> Compare b c = -1 -> Compare a c = -1 ->
  Sort [c; a; b] = [a; b; c].
Proof.
  intros Hab Hbc Hac.
  assert (Hba : Compare b a = 1) by (rewrite Compare_antisym, Hab; reflexivity).
  unfold Sort, insertionSort. cbn [Len length Nat.sub seq fold_left].
  assert (S1 : sift [c; a; b] 1 = [a; c; b]).
  { cbn [sift]. unfold Less, Swap. cbn [nth set_at]. rewrite Hac. reflexivity. }
  rewrite S1.
  cbn [sift]. unfold Less, Swap. cbn [nth set_at].
  rewrite Hbc. cbn [Z.ltb Z.compare]. rewrite Hba. reflexivity.
Qed.

(** C3, as stated, fails: timestamps of 48 bits and more are truncated, so
    a later timestamp can get the smaller ordering prefix. *)
Lemma truncation_reverses_order :
  let a := NewWithTimestamp [197] 0 (2 ^ 47) in
  let b := NewWithTimestamp [197] 0 (2 ^ 48) in
  2 ^ 47 < 2 ^ 48 /\ 2 ^ 48 < 2 ^ 64
  /\ prefix40 (2 ^ 47) <> prefix40 (2 ^ 48)
  /\ Compare a b = 1
  /\ Sort [b; a] = [b; a]
  /\ ~ (forall rtsig rv1 rv2 ts1 ts2,
          0 <= ts1 -> ts1 < ts2 -> ts2 < 2 ^ 64 ->
          prefix40 ts1 <> prefix40 ts2 ->
          Compare (NewWithTimestamp rtsig rv1 ts1)
                  (NewWithTimestamp rtsig rv2 ts2) = -1).
Proof.
  cbv zeta.
  split; [reflexivity|]. split; [reflexivity|].
  split; [vm_compute; discriminate|].
  split; [vm_compute; reflexivity|].
  split; [vm_compute; reflexivity|].
  intros H.
  specialize (H [197] 0 0 (2 ^ 47) (2 ^ 48)).
  assert (E : Compare (NewWithTimestamp [197] 0 (2 ^ 47))
                      (NewWithTimestamp [197] 0 (2 ^ 48)) = 1)
    by (vm_compute; reflexivity).
  rewrite E in H.
  assert (A : 1 = -1).
  { apply H.
    - vm_compute. discriminate.
    - reflexivity.
    - reflexivity.
    - vm_compute. discriminate. }
  discriminate A.
Qed.

(** C3, amended.  For identifiers generated from timestamps whose values
    truncated to 48 bits are strictly increasing and differ in their
    leading 40 bits, [Compare] reports strictly increasing order, and
    sorting three such identifiers given in the order third, first, second
    yields first, second, third. *)
Theorem chronological_order (rtsig : list Z) (rv1 rv2 rv3 T1 T2 T3 : Z) :
  T1 mod 2 ^ 48 < T2 mod 2 ^ 48 -> T2 mod 2 ^ 48 < T3 mod 2 ^ 48 ->
  prefix40 T1 <> prefix40 T2 -> prefix40 T2 <> prefix40 T3 ->
  let id1 := NewWithTimestamp rtsig rv1 T1 in
  let id2 := NewWithTimestamp rtsig rv2 T2 in
  let id3 := NewWithTimestamp rtsig rv3 T3 in
  Compare id1 id2 = -1 /\ Compare id2 id3 = -1 /\ Compare id1 id3 = -1
  /\ Sort [id3; id1; id2] = [id1; id2; id3].
Proof.
  intros H12 H23 N12 N23. cbv zeta.
  assert (P12 : prefix40 T1 < prefix40 T2).
  { unfold prefix40 in *. rewrite !Z.shiftr_div_pow2 in * by lia.
    Z.div_mod_to_equations. lia. }
  assert (P23 : prefix40 T2 < prefix40 T3).
  { unfold prefix40 in *. rewrite !Z.shiftr_div_pow2 in * by lia.
    Z.div_mod_to_equations. lia. }
  assert (C12 : Compare (NewWithTimestamp rtsig rv1 T1)
                        (NewWithTimestamp rtsig rv2 T2) = -1)
    by (rewrite Compare_generated; apply Z.sgn_neg; lia).
  assert (C23 : Compare (NewWithTimestamp rtsig rv2 T2)
                        (NewWithTimestamp rtsig rv3 T3) = -1)
    by (rewrite Compare_generated; apply Z.sgn_neg; lia).
  assert (C13 : Compare (NewWithTimestamp rtsig rv1 T1)
                        (NewWithTimestamp rtsig rv3 T3) = -1)
    by (rewrite Compare_generated; apply Z.sgn_neg; lia).
  repeat split; try assumption. now apply Sort_three.
Qed.

Lemma chronological_order_witness :
  let id1 := NewWithTimestamp [197] 11 1670369682250 in
  let id2 := NewWithTimestamp [197] 7 1670369683250 in
  let id3 := NewWithTimestamp [197] 5 1670369684250 in
  Compare id1 id2 = -1 /\ Compare id2 id3 = -1 /\ Compare id1 id3 = -1
  /\ Sort [id3; id1; id2] = [id1; id2; id3].
Proof.
  apply (chronological_order [197] 11 7 5 1670369682250 1670369683250 1670369684250).
  - vm_compute. reflexivity.
  - vm_compute. reflexivity.
  - vm_compute. discriminate.
  - vm_compute. discriminate.
Defined.

(** ** The random field *)

(** C7.  The claim fails on the code: [NewWithTimestamp] writes the value
    drawn in full to the eight bytes 7 to 14, under its comment of a 6 byte
    random number, while [Random] reads bytes 7 to 12 only.  With the draw
    1 the trailing bytes are 00 00 00 00 00 00 00 01 and the accessor
    returns 0, not the value drawn. *)
Lemma random_drops_low_bytes :
  skipn 7 (NewWithTimestamp [197] 1 1670369682250) = [0; 0; 0; 0; 0; 0; 0; 1]
  /\ Random (NewWithTimestamp [197] 1 1670369682250) = 0
  /\ ~ (forall rtsig rv ts,
          0 <= rv < 2 ^ 48 -> Random (NewWithTimestamp rtsig rv ts) = rv).
Proof.
  split; [reflexivity|]. split; [reflexivity|].
  intros H. specialize (H [197] 1 1670369682250).
  assert (E : Random (NewWithTimestamp [197] 1 1670369682250) = 0) by reflexivity.
  rewrite E in H. assert (0 = 1) by (apply H; lia). discriminate.
Qed.

(** ** Errors of the parse paths *)

Lemma UnmarshalText_nil (id : ID) (text : list Z) :
  length id = rawLen ->
  UnmarshalText id text = Done (nilID, None) -> text = zeros24.
Proof.
  intros Hid H. destruct (valid_textb text) eqn:Hv.
  - apply valid_textb_spec in Hv.
    destruct (UnmarshalText_valid id text Hid Hv) as [r [Hr [_ [_ HE]]]].
    rewrite Hr in H. injection H as ->. rewrite <- HE. reflexivity.
  - rewrite UnmarshalText_invalid in H; [discriminate H|].
    intros Hc. apply valid_textb_spec in Hc. congruence.
Qed.

(** C9, as stated, fails: well-formed input that is neither absent nor
    [null] decodes to the nil identifier without error when it is the
    encoding of fifteen zero bytes. *)
Lemma nil_from_wellformed_input :
  FromString zeros24 = Done (nilID, None)
  /\ FromBytes (repeat 0 rawLen) = (nilID, None)
  /\ Scan sample_id (VString zeros24) = Done (nilID, None)
  /\ zeros24 <> null_token
  /\ valid_text zeros24.
Proof.
  split; [vm_compute; reflexivity|]. split; [vm_compute; reflexivity|].
  split; [vm_compute; reflexivity|]. split; [vm_compute; discriminate|].
  apply valid_textb_spec. vm_compute. reflexivity.
Qed.

(** C9, amended.  Every parse path returns an error on invalid input: an
    ill-formed text or a byte sequence of the wrong length gives the nil
    identifier together with [ErrInvalidID], and a value of an unsupported
    shape gives an error and leaves the identifier as it was.  A parse path
    yields the nil identifier without error only for the absent value, and
    for the well-formed encodings of the all-zero identifier: the text of
    24 characters [0] and the sequence of 15 zero bytes. *)
Theorem parse_errors_propagate (id : ID) (text b : list Z) (v : value) :
  length id = rawLen ->
  (~ valid_text text -> FromString text = Done (nilID, Some ErrInvalidID))
  /\ (length b <> rawLen -> FromBytes b = (nilID, Some ErrInvalidID))
  /\ (scan_invalid v -> exists r e, Scan id v = Done (r, Some e))
  /\ (forall t, Scan id (VOther t) = Done (id, Some ErrUnsupportedType))
  /\ (FromString text = Done (nilID, None) -> text = zeros24)
  /\ (FromBytes b = (nilID, None) -> b = nilID)
  /\ (Scan id v = Done (nilID, None) ->
      v = VNil \/ v = VString zeros24 \/ v = VBytes zeros24).
Proof.
  intros Hid. repeat split.
  - intros H. unfold FromString. now apply UnmarshalText_invalid.
  - intros H. unfold FromBytes. apply Nat.eqb_neq in H. now rewrite H.
  - destruct v as [s|s| |t]; simpl; intros H.
    + exists nilID, ErrInvalidID. now apply UnmarshalText_invalid.
    + exists nilID, ErrInvalidID. now apply UnmarshalText_invalid.
    + contradiction.
    + exists id, ErrUnsupportedType. reflexivity.
  - unfold FromString. apply UnmarshalText_nil. reflexivity.
  - unfold FromBytes.
    destruct (length b =? rawLen)%nat eqn:HL; cbn [negb]; [|discriminate].
    apply Nat.eqb_eq in HL. rewrite copy_nilID by assumption.
    intros H. now injection H.
  - destruct v as [s|s| |t]; simpl; intros H.
    + right. left. f_equal. now apply (UnmarshalText_nil id).
    + right. right. f_equal. now apply (UnmarshalText_nil id).
    + now left.
    + discriminate H.
Qed.

Lemma parse_errors_propagate_witness :
  (~ valid_text bad_text -> FromString bad_text = Done (nilID, Some ErrInvalidID))
  /\ (length [1; 2; 3] <> rawLen -> FromBytes [1; 2; 3] = (nilID, Some ErrInvalidID))
  /\ (scan_invalid (VOther "int64") ->
      exists r e, Scan sample_id (VOther "int64") = Done (r, Some e))
  /\ (forall t, Scan sample_id (VOther t) = Done (sample_id, Some ErrUnsupportedType))
  /\ (FromString bad_text = Done (nilID, None) -> bad_text = zeros24)
  /\ (FromBytes [1; 2; 3] = (nilID, None) -> [1; 2; 3] = nilID)
  /\ (Scan sample_id (VOther "int64") = Done (nilID, None) ->
      VOther "int64" = VNil \/ VOther "int64" = VString zeros24
      \/ VOther "int64" = VBytes zeros24).
Proof.
  apply (parse_errors_propagate sample_id bad_text [1; 2; 3] (VOther "int64")).
  reflexivity.
Defined.

(** * Further properties *)

(** ** Fields of a generated identifier *)

Lemma Timestamp_be (id : ID) :
  wf_ID id -> Timestamp id = be_val (firstn 6 id).
Proof.
  intros [HL HB]. list_of_length id 15.
  repeat match goal with
         | H : Forall is_byte (_ :: _) |- _ =>
             apply is_byte_Forall_inv in H; destruct H as [? H]
         end.
  unfold Timestamp. cbn [firstn at_ nth]. now apply be48.
Qed.

Lemma generated_wf (rtsig : list Z) (rv ts : Z) :
  is_byte (at_ rtsig 0) -> wf_ID (NewWithTimestamp rtsig rv ts).
Proof.
  intros Hs. rewrite NewWithTimestamp_bytes. split; [reflexivity|].
  repeat (apply Forall_cons; [first [apply byte_is_byte | exact Hs]|]).
  apply Forall_nil.
Qed.

Lemma Timestamp_generated (rtsig : list Z) (rv ts : Z) :
  Timestamp (NewWithTimestamp rtsig rv ts) = ts mod 2 ^ 48.
Proof.
  rewrite NewWithTimestamp_bytes. unfold Timestamp. cbn [firstn at_ nth].
  rewrite be48 by apply byte_is_byte.
  cbn [be_val length]. unfold byte. rewrite !Z.shiftr_div_pow2 by lia.
  change (256 ^ Z.of_nat 5) with 1099511627776.
  change (256 ^ Z.of_nat 4) with 4294967296.
  change (256 ^ Z.of_nat 3) with 16777216.
  change (256 ^ Z.of_nat 2) with 65536.
  change (256 ^ Z.of_nat 1) with 256.
  change (256 ^ Z.of_nat 0) with 1.
  Z.div_mod_to_equations. lia.
Qed.

(** The eight trailing bytes hold the value drawn, most significant byte
    first. *)
Lemma tail_generated (rtsig : list Z) (rv ts : Z) :
  0 <= rv < 2 ^ 64 -> be_val (skipn 7 (NewWithTimestamp rtsig rv ts)) = rv.
Proof.
  intros Hrv. rewrite NewWithTimestamp_bytes. cbn [skipn be_val length].
  unfold byte. rewrite !Z.shiftr_div_pow2 by lia.
  change (256 ^ Z.of_nat 7) with 72057594037927936.
  change (256 ^ Z.of_nat 6) with 281474976710656.
  change (256 ^ Z.of_nat 5) with 1099511627776.
  change (256 ^ Z.of_nat 4) with 4294967296.
  change (256 ^ Z.of_nat 3) with 16777216.
  change (256 ^ Z.of_nat 2) with 65536.
  change (256 ^ Z.of_nat 1) with 256.
  change (256 ^ Z.of_nat 0) with 1.
  Z.div_mod_to_equations. lia.
Qed.

(** Only the low 48 bits of the timestamp enter the identifier. *)
Lemma NewWithTimestamp_trunc (rtsig : list Z) (rv ts : Z) :
  NewWithTimestamp rtsig rv ts = NewWithTimestamp rtsig rv (ts mod 2 ^ 48).
Proof.
  rewrite !NewWithTimestamp_bytes. unfold byte.
  rewrite !Z.shiftr_div_pow2 by lia.
  do 6 (apply f_equal2; [Z.div_mod_to_equations; lia|]). reflexivity.
Qed.

(** X1.  The timestamp accessor returns the low 48 bits of the timestamp
    supplied at generation, hence the timestamp itself when it is below
    2^48; for [New] it returns the low 48 bits of the clock reading. *)
Theorem timestamp_accessor (rtsig : list Z) (rv ts now : Z) :
  Timestamp (NewWithTimestamp rtsig rv ts) = ts mod 2 ^ 48
  /\ 0 <= Timestamp (NewWithTimestamp rtsig rv ts) < 2 ^ 48
  /\ Timestamp (NewWithTimestamp rtsig rv (ts mod 2 ^ 48)) = ts mod 2 ^ 48
  /\ Timestamp (New rtsig rv now) = now mod 2 ^ 48.
Proof.
  rewrite <- NewWithTimestamp_trunc. unfold New.
  rewrite !Timestamp_generated. repeat split.
  - apply Z.mod_pos_bound. lia.
  - apply Z.mod_pos_bound. lia.
  - Z.div_mod_to_equations. lia.
Qed.

(** X2.  Every identifier generated with the one-byte signature of the
    process carries exactly that signature, whatever the timestamp and the
    random value: identifiers of one process share their signature. *)
Theorem signature_stable (rtsig : list Z) (rv1 rv2 ts1 ts2 : Z) :
  length rtsig = 1%nat ->
  RuntimeSignature (NewWithTimestamp rtsig rv1 ts1) = rtsig
  /\ RuntimeSignature (NewWithTimestamp rtsig rv2 ts2)
     = RuntimeSignature (NewWithTimestamp rtsig rv1 ts1).
Proof.
  intros H. list_of_length rtsig 1.
  rewrite !NewWithTimestamp_bytes. split; reflexivity.
Qed.

Lemma signature_stable_witness :
  RuntimeSignature (NewWithTimestamp [197] 5 1670369682250) = [197]
  /\ RuntimeSignature (NewWithTimestamp [197] 9 1670369682251)
     = RuntimeSignature (NewWithTimestamp [197] 5 1670369682250).
Proof. apply (signature_stable [197] 5 9 1670369682250 1670369682251). reflexivity. Defined.

Lemma generated_equal (sig1 sig2 : list Z) (rv1 rv2 ts1 ts2 : Z) :
  0 <= rv1 < 2 ^ 64 -> 0 <= rv2 < 2 ^ 64 ->
  (NewWithTimestamp sig1 rv1 ts1 = NewWithTimestamp sig2 rv2 ts2
   <-> ts1 mod 2 ^ 48 = ts2 mod 2 ^ 48 /\ at_ sig1 0 = at_ sig2 0 /\ rv1 = rv2).
Proof.
  intros H1 H2. split.
  - intros E. repeat split.
    + rewrite <- (Timestamp_generated sig1 rv1 ts1), E.
      apply Timestamp_generated.
    + assert (S : RuntimeSignature (NewWithTimestamp sig1 rv1 ts1)
                  = RuntimeSignature (NewWithTimestamp sig2 rv2 ts2))
        by now rewrite E.
      rewrite !NewWithTimestamp_bytes in S. cbn in S. now injection S.
    + rewrite <- (tail_generated sig1 rv1 ts1 H1), E.
      now apply tail_generated.
  - intros [Et [Es Er]]. subst rv2.
    rewrite (NewWithTimestamp_trunc sig1), (NewWithTimestamp_trunc sig2), Et.
    rewrite !NewWithTimestamp_bytes. now rewrite Es.
Qed.

(** X3.  Two generated identifiers are equal exactly when their timestamps
    agree on the low 48 bits, their signature bytes agree and the random
    values drawn are the same: distinct draws never give the same
    identifier. *)
Theorem generated_equal_iff (sig1 sig2 : list Z) (rv1 rv2 ts1 ts2 : Z) :
  0 <= rv1 < 2 ^ 64 -> 0 <= rv2 < 2 ^ 64 ->
  (NewWithTimestamp sig1 rv1 ts1 = NewWithTimestamp sig2 rv2 ts2
   <-> ts1 mod 2 ^ 48 = ts2 mod 2 ^ 48 /\ at_ sig1 0 = at_ sig2 0 /\ rv1 = rv2)
  /\ (rv1 <> rv2 -> NewWithTimestamp sig1 rv1 ts1 <> NewWithTimestamp sig2 rv2 ts2).
Proof.
  intros H1 H2. split; [now apply generated_equal|].
  intros N E. apply (generated_equal sig1 sig2 rv1 rv2 ts1 ts2 H1 H2) in E.
  now apply N.
Qed.

Lemma generated_equal_iff_witness :
  (NewWithTimestamp [197] 5 1670369682250 = NewWithTimestamp [197] 6 1670369682250
   <-> 1670369682250 mod 2 ^ 48 = 1670369682250 mod 2 ^ 48
       /\ at_ [197] 0 = at_ [197] 0 /\ 5 = 6)
  /\ (5 <> 6 -> NewWithTimestamp [197] 5 1670369682250
                <> NewWithTimestamp [197] 6 1670369682250).
Proof.
  apply (generated_equal_iff [197] [197] 5 6 1670369682250 1670369682250).
  - vm_compute. split; [discriminate | reflexivity].
  - vm_compute. split; [discriminate | reflexivity].
Defined.

(** X4.  A generated identifier is the nil identifier only when the low 48
    bits of the timestamp, the signature byte and the random value are all
    zero. *)
Theorem generated_nil_iff (rtsig : list Z) (rv ts : Z) :
  0 <= rv < 2 ^ 64 ->
  (IsNil (NewWithTimestamp rtsig rv ts) = true
   <-> ts mod 2 ^ 48 = 0 /\ at_ rtsig 0 = 0 /\ rv = 0).
Proof.
  intros Hrv. rewrite IsNil_spec.
  assert (N : nilID = NewWithTimestamp [0] 0 0) by reflexivity.
  rewrite N. rewrite (generated_equal rtsig [0] rv 0 ts 0 Hrv) by lia.
  reflexivity.
Qed.

Lemma generated_nil_iff_witness :
  IsNil (NewWithTimestamp [0] 1 0) = true
  <-> 0 mod 2 ^ 48 = 0 /\ at_ [0] 0 = 0 /\ 1 = 0.
Proof.
  apply (generated_nil_iff [0] 1 0). vm_compute. split; [discriminate | reflexivity].
Defined.

(** ** Round trips through the adapters *)

Lemma Encode_valid (id : ID) : length id = rawLen -> valid_text (Base32.Encode id).
Proof. intros H. split; [now apply Encode_length | now apply Encode_charset]. Qed.

Lemma UnmarshalText_Encode (id0 id : ID) :
  length id0 = rawLen -> wf_ID id ->
  UnmarshalText id0 (Base32.Encode id) = Done (id, None).
Proof.
  intros H0 Hid.
  destruct (UnmarshalText_valid id0 _ H0 (Encode_valid id (proj1 Hid)))
    as [r [Hr [Hd _]]].
  rewrite (Decode_Encode id Hid) in Hd. injection Hd as <-. exact Hr.
Qed.

(** X5.  Text round trip through the public operations: the text of an
    identifier has 24 characters of the alphabet, [FromString] of it gives
    the identifier back, and so does [UnmarshalText] of [MarshalText]
    whatever the receiver held before; conversely the identifier parsed
    from a well-formed text has that text. *)
Theorem text_round_trip (id0 id : ID) (text : list Z) :
  length id0 = rawLen -> wf_ID id -> valid_text text ->
  valid_text (String id)
  /\ FromString (String id) = Done (id, None)
  /\ UnmarshalText id0 (fst (MarshalText id)) = Done (id, None)
  /\ exists r, FromString text = Done (r, None) /\ wf_ID r /\ String r = text.
Proof.
  intros H0 Hid Ht.
  assert (HL := proj1 Hid).
  unfold MarshalText. cbn [fst]. fold (String id).
  rewrite String_ID by assumption. repeat split.
  - now apply Encode_length.
  - now apply Encode_charset.
  - unfold FromString. now apply UnmarshalText_Encode.
  - now apply UnmarshalText_Encode.
  - destruct (UnmarshalText_valid nilID text eq_refl Ht) as [r [Hr [_ [Hw He]]]].
    exists r. repeat split; try apply Hw; [exact Hr|].
    rewrite String_ID by apply Hw. exact He.
Qed.

Lemma text_round_trip_witness :
  valid_text (String sample_id)
  /\ FromString (String sample_id) = Done (sample_id, None)
  /\ UnmarshalText sample_id' (fst (MarshalText sample_id)) = Done (sample_id, None)
  /\ exists r, FromString sample_text = Done (r, None) /\ wf_ID r
               /\ String r = sample_text.
Proof.
  apply (text_round_trip sample_id' sample_id sample_text).
  - reflexivity.
  - apply wf_ID_check. vm_compute. reflexivity.
  - apply valid_textb_spec. vm_compute. reflexivity.
Defined.

(** X6.  The text form is injective: two identifiers have the same text
    exactly when they are the same identifier. *)
Theorem String_injective (a b : ID) :
  wf_ID a -> wf_ID b -> (String a = String b <-> a = b).
Proof.
  intros Ha Hb. split; [|intros ->; reflexivity]. intros E.
  assert (F : FromString (String a) = FromString (String b)) by now rewrite E.
  unfold FromString in F.
  rewrite !String_ID in F by (apply Ha || apply Hb).
  rewrite !UnmarshalText_Encode in F by (assumption || reflexivity).
  now injection F.
Qed.

Lemma String_injective_witness :
  String sample_id = String sample_id' <-> sample_id = sample_id'.
Proof.
  apply (String_injective sample_id sample_id').
  - apply wf_ID_check. vm_compute. reflexivity.
  - apply wf_ID_check. vm_compute. reflexivity.
Defined.

Lemma nilID_wf : wf_ID nilID.
Proof. apply wf_ID_check. vm_compute. reflexivity. Qed.

Lemma quoted_inner (t : list Z) (p q : Z) :
  slice (p :: t ++ [q]) 1 (Z.of_nat (length (p :: t ++ [q])) - 1) = Done t.
Proof.
  unfold slice. cbn [length]. rewrite length_app. cbn [length].
  assert (E : Z.of_nat (S (length t + 1)) - 1 = Z.of_nat (length t) + 1) by lia.
  rewrite E.
  assert (C : (0 <=? 1) && (1 <=? Z.of_nat (length t) + 1)
              && (Z.of_nat (length t) + 1 <=? Z.of_nat (S (length t + 1))) = true).
  { rewrite !andb_true_iff, !Z.leb_le. lia. }
  rewrite C. f_equal.
  replace (Z.to_nat (Z.of_nat (length t) + 1 - 1)) with (length t) by lia.
  change (Z.to_nat 1) with 1%nat. cbn [skipn].
  rewrite firstn_app, firstn_all, Nat.sub_diag. cbn [firstn]. apply app_nil_r.
Qed.

Lemma not_null_token (t : list Z) (p q : Z) :
  length t <> 2%nat -> list_eqb (p :: t ++ [q]) null_token = false.
Proof.
  intros H. destruct (list_eqb (p :: t ++ [q]) null_token) eqn:E; [|reflexivity].
  apply list_eqb_spec in E. exfalso. apply H.
  apply (f_equal (@length Z)) in E. cbn [length] in E.
  rewrite length_app in E. cbn in E. lia.
Qed.

(** X7.  JSON round trip: unmarshalling the JSON form of any identifier,
    nil or not, gives the identifier back, whatever the receiver held
    before. *)
Theorem json_round_trip (id0 id : ID) :
  length id0 = rawLen -> wf_ID id ->
  UnmarshalJSON id0 (fst (MarshalJSON id)) = Done (id, None).
Proof.
  intros H0 Hid. destruct (list_eqb id nilID) eqn:E.
  - unfold MarshalJSON. rewrite E. apply list_eqb_spec in E. now subst id.
  - rewrite MarshalJSON_quoted; [|apply Hid|].
    + cbn [fst]. unfold UnmarshalJSON.
      assert (L : length (String id) = encodedLen).
      { rewrite String_ID by apply Hid. apply Encode_length, Hid. }
      rewrite not_null_token by (rewrite L; discriminate).
      rewrite quoted_inner. rewrite String_ID by apply Hid.
      now apply UnmarshalText_Encode.
    + intros N. apply list_eqb_spec in N. congruence.
Qed.

Lemma json_round_trip_witness :
  UnmarshalJSON sample_id' (fst (MarshalJSON sample_id)) = Done (sample_id, None).
Proof.
  apply (json_round_trip sample_id' sample_id).
  - reflexivity.
  - apply wf_ID_check. vm_compute. reflexivity.
Defined.

(** X8.  [UnmarshalJSON] does not look at the first and the last byte of
    its input: any two bytes around a well-formed text are accepted like
    quotes, and the text between them is decoded. *)
Theorem json_delimiters_unchecked (id0 : ID) (text : list Z) (p q : Z) :
  length id0 = rawLen -> valid_text text ->
  UnmarshalJSON id0 (p :: text ++ [q]) = UnmarshalText id0 text
  /\ exists r, UnmarshalJSON id0 (p :: text ++ [q]) = Done (r, None)
               /\ String r = text.
Proof.
  intros H0 Ht.
  assert (E : UnmarshalJSON id0 (p :: text ++ [q]) = UnmarshalText id0 text).
  { unfold UnmarshalJSON.
    rewrite not_null_token by (rewrite (proj1 Ht); discriminate).
    now rewrite quoted_inner. }
  split; [exact E|]. rewrite E.
  destruct (UnmarshalText_valid id0 text H0 Ht) as [r [Hr [_ [Hw He]]]].
  exists r. split; [exact Hr|]. rewrite String_ID by apply Hw. exact He.
Qed.

Lemma json_delimiters_unchecked_witness :
  UnmarshalJSON nilID (120 :: sample_text ++ [121]) = UnmarshalText nilID sample_text
  /\ exists r, UnmarshalJSON nilID (120 :: sample_text ++ [121]) = Done (r, None)
               /\ String r = sample_text.
Proof.
  apply (json_delimiters_unchecked nilID sample_text 120 121).
  - reflexivity.
  - apply valid_textb_spec. vm_compute. reflexivity.
Defined.

(** X9.  SQL round trip: [Value] of the nil identifier is the absent value
    and [Value] of any other identifier is its text as a string; scanning
    the value gives the identifier back.  The raw 15 bytes of an
    identifier are no input for [Scan], which reads a byte slice as
    text. *)
Theorem sql_round_trip (id0 id : ID) :
  length id0 = rawLen -> wf_ID id ->
  fst (Value id) = (if IsNil id then VNil else VString (String id))
  /\ snd (Value id) = None
  /\ Scan id0 (fst (Value id)) = Done (id, None)
  /\ Scan id0 (VBytes (Bytes id)) = Done (nilID, Some ErrInvalidID).
Proof.
  intros H0 Hid. unfold Value.
  destruct (IsNil id) eqn:E; cbn [fst snd].
  - apply IsNil_spec in E. subst id. repeat split.
  - unfold MarshalText. cbn [fst snd]. fold (String id). repeat split.
    + cbn [Scan]. rewrite String_ID by apply Hid.
      now apply UnmarshalText_Encode.
    + cbn [Scan]. unfold Bytes. apply UnmarshalText_invalid.
      intros [HL _]. rewrite (proj1 Hid) in HL. discriminate HL.
Qed.

Lemma sql_round_trip_witness :
  fst (Value sample_id) = (if IsNil sample_id then VNil else VString (String sample_id))
  /\ snd (Value sample_id) = None
  /\ Scan sample_id' (fst (Value sample_id)) = Done (sample_id, None)
  /\ Scan sample_id' (VBytes (Bytes sample_id)) = Done (nilID, Some ErrInvalidID).
Proof.
  apply (sql_round_trip sample_id' sample_id).
  - reflexivity.
  - apply wf_ID_check. vm_compute. reflexivity.
Defined.

(** X10.  The result of parsing a text does not depend on what the
    receiver held before: on a well-formed text the receiver becomes the
    identifier with that text and no error is returned, on any other text
    it becomes the nil identifier and [ErrInvalidID] is returned; [Scan] of
    a string or a byte slice does the same, and [Scan] of the absent value
    leaves the nil identifier. *)
Theorem receiver_overwritten (id1 id2 : ID) (text : list Z) :
  length id1 = rawLen -> length id2 = rawLen ->
  UnmarshalText id1 text = UnmarshalText id2 text
  /\ (if valid_textb text
      then exists r, UnmarshalText id1 text = Done (r, None)
                     /\ wf_ID r /\ String r = text
      else UnmarshalText id1 text = Done (nilID, Some ErrInvalidID))
  /\ Scan id1 (VString text) = UnmarshalText id2 text
  /\ Scan id1 (VBytes text) = UnmarshalText id2 text
  /\ Scan id1 VNil = Done (nilID, None).
Proof.
  intros H1 H2.
  assert (E : UnmarshalText id1 text = UnmarshalText id2 text
              /\ (if valid_textb text
                  then exists r, UnmarshalText id1 text = Done (r, None)
                                 /\ wf_ID r /\ String r = text
                  else UnmarshalText id1 text = Done (nilID, Some ErrInvalidID))).
  { destruct (valid_textb text) eqn:Hv.
    - apply valid_textb_spec in Hv.
      destruct (UnmarshalText_valid id1 text H1 Hv) as [r1 [Hr1 [Hd1 [Hw1 He1]]]].
      destruct (UnmarshalText_valid id2 text H2 Hv) as [r2 [Hr2 [Hd2 _]]].
      split.
      + rewrite Hr1, Hr2. rewrite Hd1 in Hd2. now injection Hd2 as ->.
      + exists r1. split; [exact Hr1|]. split; [exact Hw1|].
        rewrite String_ID by apply Hw1. exact He1.
    - assert (Hn : ~ valid_text text)
        by (intros Hc; apply valid_textb_spec in Hc; congruence).
      split; [now rewrite !UnmarshalText_invalid|].
      now apply UnmarshalText_invalid. }
  destruct E as [E1 E2]. cbn [Scan]. repeat split; assumption.
Qed.

Lemma receiver_overwritten_witness :
  UnmarshalText sample_id bad_text = UnmarshalText sample_id' bad_text
  /\ (if valid_textb bad_text
      then exists r, UnmarshalText sample_id bad_text = Done (r, None)
                     /\ wf_ID r /\ String r = bad_text
      else UnmarshalText sample_id bad_text = Done (nilID, Some ErrInvalidID))
  /\ Scan sample_id (VString bad_text) = UnmarshalText sample_id' bad_text
  /\ Scan sample_id (VBytes bad_text) = UnmarshalText sample_id' bad_text
  /\ Scan sample_id VNil = Done (nilID, None).
Proof.
  apply (receiver_overwritten sample_id sample_id' bad_text); reflexivity.
Defined.

(** X11.  Decoding is case-sensitive: a text of 24 characters that
    contains an upper-case letter is rejected. *)
Theorem upper_case_rejected (id : ID) (text : list Z) :
  length text = encodedLen -> Exists (fun c => 65 <= c <= 90) text ->
  UnmarshalText id text = Done (nilID, Some ErrInvalidID)
  /\ FromString text = Done (nilID, Some ErrInvalidID).
Proof.
  intros HL HE.
  assert (Hn : ~ valid_text text).
  { intros [_ HF]. apply Exists_exists in HE. destruct HE as [c [Hc Hr]].
    pose proof (proj1 (Forall_forall _ _) HF c Hc) as Hin.
    assert (K : forallb (fun c => negb ((65 <=? c) && (c <=? 90))) charset_bytes = true)
      by (vm_compute; reflexivity).
    apply (proj1 (forallb_forall _ _) K) in Hin.
    apply negb_true_iff, andb_false_iff in Hin. lia. }
  split; [|unfold FromString]; now apply UnmarshalText_invalid.
Qed.

Lemma upper_case_rejected_witness :
  UnmarshalText nilID (map (fun c => if 97 <=? c then c - 32 else c) sample_text)
  = Done (nilID, Some ErrInvalidID)
  /\ FromString (map (fun c => if 97 <=? c then c - 32 else c) sample_text)
     = Done (nilID, Some ErrInvalidID).
Proof.
  apply (upper_case_rejected nilID).
  - reflexivity.
  - apply Exists_exists. exists 69. split; [vm_compute; tauto | lia].
Defined.

(** ** The order of [Compare] *)

Lemma bytes_Compare_range (a b : list Z) :
  bytes_Compare a b = -1 \/ bytes_Compare a b = 0 \/ bytes_Compare a b = 1.
Proof.
  revert b. induction a as [|x a IH]; intros [|y b]; simpl; auto.
  destruct (x <? y); auto. destruct (y <? x); auto.
Qed.

Lemma bytes_Compare_refl (a : list Z) : bytes_Compare a a = 0.
Proof. now apply bytes_Compare_eq. Qed.

Lemma bytes_Compare_trans (a b c : list Z) :
  bytes_Compare a b <= 0 -> bytes_Compare b c <= 0 -> bytes_Compare a c <= 0.
Proof.
  revert b c. induction a as [|x a IH]; intros [|y b] [|z c]; simpl; try lia.
  destruct (x <? y) eqn:Hxy, (y <? x) eqn:Hyx, (y <? z) eqn:Hyz,
           (z <? y) eqn:Hzy, (x <? z) eqn:Hxz, (z <? x) eqn:Hzx;
    try rewrite Z.ltb_lt in *; try rewrite Z.ltb_ge in *; try lia.
  apply IH.
Qed.

(** X12.  [Compare] is a total preorder with results -1, 0 and +1: on
    all identifiers it is reflexive, swapping the arguments negates the
    result, and it is transitive. *)
Theorem Compare_preorder (a b c : ID) :
  (Compare a b = -1 \/ Compare a b = 0 \/ Compare a b = 1)
  /\ Compare a a = 0
  /\ Compare b a = - Compare a b
  /\ (Compare a b <= 0 -> Compare b c <= 0 -> Compare a c <= 0).
Proof.
  unfold Compare. repeat split.
  - apply bytes_Compare_range.
  - apply bytes_Compare_refl.
  - apply bytes_Compare_antisym.
  - apply bytes_Compare_trans.
Qed.

(** An instance of the transitivity, on three identifiers of which the
    last two share their ordering prefix. *)
Lemma Compare_preorder_witness : Compare nilID sample_id' <= 0.
Proof.
  apply (proj2 (proj2 (proj2 (Compare_preorder nilID sample_id sample_id')))).
  - vm_compute. discriminate.
  - vm_compute. discriminate.
Defined.

Lemma be_val_app (l1 l2 : list Z) :
  be_val (l1 ++ l2) = be_val l1 * 256 ^ Z.of_nat (length l2) + be_val l2.
Proof.
  induction l1 as [|x l1 IH]; cbn [app be_val]; [lia|].
  rewrite IH, length_app, Nat2Z.inj_add, Z.pow_add_r by lia. ring.
Qed.

(** X13.  On any two identifiers [Compare] is the comparison of their
    timestamps at a resolution of 256 milliseconds. *)
Theorem Compare_timestamp (a b : ID) :
  wf_ID a -> wf_ID b ->
  Compare a b = Z.sgn (Timestamp a / 256 - Timestamp b / 256).
Proof.
  intros Ha Hb.
  assert (P : forall id, wf_ID id ->
              Forall is_byte (firstn 5 id) /\ length (firstn 5 id) = 5%nat
              /\ Timestamp id / 256 = be_val (firstn 5 id)).
  { intros id Hid. rewrite (Timestamp_be id Hid). destruct Hid as [HL HB].
    list_of_length id 15.
    repeat match goal with
           | H : Forall is_byte (_ :: _) |- _ =>
               apply is_byte_Forall_inv in H; destruct H as [? H]
           end.
    cbn [firstn]. split; [repeat (apply Forall_cons; [assumption|]); apply Forall_nil|].
    split; [reflexivity|].
    change [z; z0; z1; z2; z3; z4] with ([z; z0; z1; z2; z3] ++ [z4]).
    rewrite be_val_app. cbn [length be_val].
    unfold is_byte in *. change (256 ^ Z.of_nat 1) with 256.
    change (256 ^ Z.of_nat 0) with 1.
    generalize (be_val [z; z0; z1; z2; z3]). intros v.
    Z.div_mod_to_equations. lia. }
  destruct (P a Ha) as [Ba [La Ta]], (P b Hb) as [Bb [Lb Tb]].
  unfold Compare. rewrite bytes_Compare_be by (assumption || congruence).
  now rewrite Ta, Tb.
Qed.

Lemma Compare_timestamp_witness :
  Compare sample_id sample_id'
  = Z.sgn (Timestamp sample_id / 256 - Timestamp sample_id' / 256).
Proof.
  apply (Compare_timestamp sample_id sample_id').
  - apply wf_ID_check. vm_compute. reflexivity.
  - apply wf_ID_check. vm_compute. reflexivity.
Defined.

(** ** Sorting *)

Lemma set_at_app_0 (A : Type) (l : list A) (a : A) (r : list A) (v : A) :
  set_at (l ++ a :: r) (length l) v = l ++ v :: r.
Proof.
  induction l as [|x l IH]; [reflexivity|].
  cbn [app length set_at]. now rewrite IH.
Qed.

Lemma set_at_app_1 (A : Type) (l : list A) (a b : A) (r : list A) (v : A) :
  set_at (l ++ a :: b :: r) (S (length l)) v = l ++ a :: v :: r.
Proof.
  induction l as [|x l IH]; [reflexivity|].
  cbn [app length set_at]. now rewrite IH.
Qed.

(** One step of the inner loop: the element after a prefix is exchanged
    with the last element of the prefix. *)
Lemma Swap_adjacent (p : list ID) (y x : ID) (r : list ID) :
  Swap ((p ++ [y]) ++ x :: r) (S (length p)) (length p) = p ++ x :: y :: r.
Proof.
  unfold Swap. rewrite <- !app_assoc. cbn [app].
  assert (N1 : nth (length p) (p ++ y :: x :: r) nilID = y)
    by (rewrite app_nth2, Nat.sub_diag by lia; reflexivity).
  assert (N2 : nth (S (length p)) (p ++ y :: x :: r) nilID = x).
  { rewrite app_nth2 by lia.
    replace (S (length p) - length p)%nat with 1%nat by lia. reflexivity. }
  rewrite N1, N2. rewrite set_at_app_1. apply set_at_app_0.
Qed.

(** The inner loop started behind a prefix inserts the next element into
    the prefix. *)
Lemma sift_ins (rl : list ID) (x : ID) (r : list ID) :
  sift (rev rl ++ x :: r) (length rl) = rev (ins_rev x rl) ++ r.
Proof.
  revert r. induction rl as [|y rl IH]; intros r; [reflexivity|].
  cbn [rev length sift ins_rev].
  assert (L : Less ((rev rl ++ [y]) ++ x :: r) (S (length rl)) (length rl)
              = (Compare x y <? 0)).
  { unfold Less. rewrite <- app_assoc. cbn [app].
    rewrite <- (length_rev rl).
    rewrite (app_nth2 (rev rl)) by lia.
    replace (S (length (rev rl)) - length (rev rl))%nat with 1%nat by lia.
    rewrite (app_nth2 (rev rl)), Nat.sub_diag by lia. reflexivity. }
  rewrite L. destruct (Compare x y <? 0).
  - rewrite <- (length_rev rl) at 1 2. rewrite Swap_adjacent.
    rewrite ?length_rev, IH. cbn [rev]. now rewrite <- app_assoc.
  - cbn [rev]. now rewrite <- !app_assoc.
Qed.

Lemma ins_rev_perm (x : ID) (rl : list ID) : Permutation (x :: rl) (ins_rev x rl).
Proof.
  induction rl as [|y rl IH]; cbn [ins_rev]; [apply Permutation_refl|].
  destruct (Compare x y <? 0); [|apply Permutation_refl].
  eapply Permutation_trans; [apply perm_swap|]. now apply perm_skip.
Qed.

Lemma ins_rev_length (x : ID) (rl : list ID) :
  length (ins_rev x rl) = S (length rl).
Proof. symmetry. apply (Permutation_length (ins_rev_perm x rl)). Qed.

Lemma Compare_le_trans (a b c : ID) :
  Compare_le a b -> Compare_le b c -> Compare_le a c.
Proof. unfold Compare_le, Compare. apply bytes_Compare_trans. Qed.

(** A prefix kept in descending order from its last element stays so when
    an element is inserted. *)
Lemma ins_rev_sorted (x : ID) (rl : list ID) :
  StronglySorted (fun a b => Compare_le b a) rl ->
  StronglySorted (fun a b => Compare_le b a) (ins_rev x rl).
Proof.
  induction 1 as [|y rl Hs IH Hy]; cbn [ins_rev].
  - constructor; constructor.
  - destruct (Compare x y <? 0) eqn:C.
    + constructor; [exact IH|].
      apply (Permutation_Forall (ins_rev_perm x rl)).
      constructor; [|exact Hy].
      apply Z.ltb_lt in C. unfold Compare_le. lia.
    + apply Z.ltb_ge in C.
      assert (Hyx : Compare_le y x).
      { unfold Compare_le. rewrite Compare_antisym. lia. }
      constructor; [constructor; assumption|].
      constructor; [exact Hyx|].
      eapply Forall_impl; [|exact Hy]. intros z Hz.
      exact (Compare_le_trans z y x Hz Hyx).
Qed.

(** The outer loop from a sorted prefix on. *)
Lemma outer_loop (r : list ID) (rp : list ID) :
  StronglySorted (fun a b => Compare_le b a) rp ->
  exists rf,
    fold_left sift (seq (length rp) (length r)) (rev rp ++ r) = rev rf
    /\ Permutation (rev r ++ rp) rf
    /\ StronglySorted (fun a b => Compare_le b a) rf.
Proof.
  revert rp. induction r as [|x r IH]; intros rp Hs.
  - exists rp. cbn [length seq fold_left rev app]. rewrite app_nil_r.
    repeat split; [apply Permutation_refl | exact Hs].
  - cbn [length seq fold_left]. rewrite sift_ins.
    destruct (IH (ins_rev x rp) (ins_rev_sorted x rp Hs)) as [rf [E [P S]]].
    rewrite ins_rev_length in E. exists rf. repeat split; [exact E| |exact S].
    eapply Permutation_trans; [|exact P].
    cbn [rev]. rewrite <- app_assoc. cbn [app].
    apply Permutation_app_head. apply ins_rev_perm.
Qed.

Lemma StronglySorted_rev (l : list ID) :
  StronglySorted (fun a b => Compare_le b a) l ->
  StronglySorted Compare_le (rev l).
Proof.
  induction 1 as [|x l Hs IH Hx]; cbn [rev]; [constructor|].
  assert (G : forall m, StronglySorted Compare_le m ->
              Forall (fun z => Compare_le z x) m ->
              StronglySorted Compare_le (m ++ [x])).
  { induction 1 as [|y m Hm IHm Hy]; intros F; cbn [app].
    - constructor; constructor.
    - inversion F; subst. constructor; [now apply IHm|].
      apply Forall_app. split; [exact Hy|]. constructor; [assumption|constructor]. }
  apply G; [exact IH|]. apply Forall_rev. exact Hx.
Qed.

(** X14.  [Sort] rearranges a collection of at most twelve identifiers,
    the size up to which the library sorts by insertion, into the order of
    [Compare]: the result holds the same identifiers and no identifier
    comes before one that compares smaller. *)
Theorem Sort_sorts (ids : list ID) :
  (length ids <= 12)%nat ->
  Permutation ids (Sort ids)
  /\ StronglySorted Compare_le (Sort ids)
  /\ length (Sort ids) = length ids.
Proof.
  intros _.
  assert (G : Permutation ids (Sort ids) /\ StronglySorted Compare_le (Sort ids)).
  { unfold Sort, insertionSort, Len. destruct ids as [|x r].
    - cbn. split; constructor.
    - cbn [length]. replace (S (length r) - 1)%nat with (length r) by lia.
      assert (S0 : StronglySorted (fun a b => Compare_le b a) [x])
        by (constructor; constructor).
      destruct (outer_loop r [x] S0) as [rf [E [P S]]].
      cbn [length rev app] in E. rewrite E. split.
      + eapply Permutation_trans; [|apply Permutation_rev].
        eapply Permutation_trans; [|exact P].
        change (x :: r) with ([x] ++ r).
        eapply Permutation_trans; [apply Permutation_app_comm|].
        apply Permutation_app_tail. apply Permutation_rev.
      + now apply StronglySorted_rev. }
  destruct G as [P S]. repeat split; try assumption.
  symmetry. now apply Permutation_length.
Qed.

Lemma Sort_sorts_witness :
  Permutation [sample_id; nilID; sample_id'] (Sort [sample_id; nilID; sample_id'])
  /\ StronglySorted Compare_le (Sort [sample_id; nilID; sample_id'])
  /\ length (Sort [sample_id; nilID; sample_id']) = length [sample_id; nilID; sample_id'].
Proof.
  apply (Sort_sorts [sample_id; nilID; sample_id']). simpl. lia.
Defined.

(** ** The text form keeps the byte order *)

Module Groups.
Import Base32.

Local Abbreviation m5 x := (Z.land x 31) (only parsing).

Ltac by_bytes1 H Hx := apply Z.eqb_eq; exact (all1_In _ _ _ H Hx).
Ltac by_bytes2 H Hx Hy := apply Z.eqb_eq; exact (all2_In _ _ _ _ _ H Hx Hy).

Lemma g0 s0 : is_byte s0 -> m5 (b0 s0) = s0 / 8.
Proof.
  intros H0. apply In_bytes256 in H0.
  assert (H : all1 bytes256 (fun s0 => m5 (b0 s0) =? s0 / 8) = true)
    by (vm_compute; reflexivity).
  by_bytes1 H H0.
Qed.

Lemma g1 s0 s1 : is_byte s0 -> is_byte s1 ->
  m5 (b1 s0 s1) = (s0 mod 8) * 4 + s1 / 64.
Proof.
  intros H0 H1. apply In_bytes256 in H0, H1.
  assert (H : all2 bytes256 bytes256
            (fun s0 s1 => m5 (b1 s0 s1) =? (s0 mod 8) * 4 + s1 / 64) = true)
    by (vm_compute; reflexivity).
  by_bytes2 H H0 H1.
Qed.

Lemma g2 s1 : is_byte s1 -> m5 (b2 s1) = (s1 / 2) mod 32.
Proof.
  intros H1. apply In_bytes256 in H1.
  assert (H : all1 bytes256 (fun s1 => m5 (b2 s1) =? (s1 / 2) mod 32) = true)
    by (vm_compute; reflexivity).
  by_bytes1 H H1.
Qed.

Lemma g3 s1 s2 : is_byte s1 -> is_byte s2 ->
  m5 (b3 s1 s2) = (s1 mod 2) * 16 + s2 / 16.
Proof.
  intros H1 H2. apply In_bytes256 in H1, H2.
  assert (H : all2 bytes256 bytes256
            (fun s1 s2 => m5 (b3 s1 s2) =? (s1 mod 2) * 16 + s2 / 16) = true)
    by (vm_compute; reflexivity).
  by_bytes2 H H1 H2.
Qed.

Lemma g4 s2 s3 : is_byte s2 -> is_byte s3 ->
  m5 (b4 s2 s3) = (s2 mod 16) * 2 + s3 / 128.
Proof.
  intros H2 H3. apply In_bytes256 in H2, H3.
  assert (H : all2 bytes256 bytes256
            (fun s2 s3 => m5 (b4 s2 s3) =? (s2 mod 16) * 2 + s3 / 128) = true)
    by (vm_compute; reflexivity).
  by_bytes2 H H2 H3.
Qed.

Lemma g5 s3 : is_byte s3 -> m5 (b5 s3) = (s3 / 4) mod 32.
Proof.
  intros H3. apply In_bytes256 in H3.
  assert (H : all1 bytes256 (fun s3 => m5 (b5 s3) =? (s3 / 4) mod 32) = true)
    by (vm_compute; reflexivity).
  by_bytes1 H H3.
Qed.

Lemma g6 s3 s4 : is_byte s3 -> is_byte s4 ->
  m5 (b6 s3 s4) = (s3 mod 4) * 8 + s4 / 32.
Proof.
  intros H3 H4. apply In_bytes256 in H3, H4.
  assert (H : all2 bytes256 bytes256
            (fun s3 s4 => m5 (b6 s3 s4) =? (s3 mod 4) * 8 + s4 / 32) = true)
    by (vm_compute; reflexivity).
  by_bytes2 H H3 H4.
Qed.

Lemma g7 s4 : is_byte s4 -> m5 (b7 s4) = s4 mod 32.
Proof.
  intros H4. apply In_bytes256 in H4.
  assert (H : all1 bytes256 (fun s4 => m5 (b7 s4) =? s4 mod 32) = true)
    by (vm_compute; reflexivity).
  by_bytes1 H H4.
Qed.

(** The eight groups of a quantum denote the number its five bytes
    denote, and each is below 32. *)
Lemma quantum_value s0 s1 s2 s3 s4 :
  is_byte s0 -> is_byte s1 -> is_byte s2 -> is_byte s3 -> is_byte s4 ->
  be32_val (map (fun b => m5 b) (unpack s0 s1 s2 s3 s4)) = be_val [s0; s1; s2; s3; s4]
  /\ Forall (fun d => 0 <= d < 32) (map (fun b => m5 b) (unpack s0 s1 s2 s3 s4)).
Proof.
  intros H0 H1 H2 H3 H4. cbn [unpack map be32_val be_val length].
  rewrite g0, g1, g2, g3, g4, g5, g6, g7 by assumption.
  unfold is_byte in *.
  change (32 ^ Z.of_nat 7) with 34359738368.
  change (32 ^ Z.of_nat 6) with 1073741824.
  change (32 ^ Z.of_nat 5) with 33554432.
  change (32 ^ Z.of_nat 4) with 1048576.
  change (32 ^ Z.of_nat 3) with 32768.
  change (32 ^ Z.of_nat 2) with 1024.
  change (32 ^ Z.of_nat 1) with 32.
  change (32 ^ Z.of_nat 0) with 1.
  change (256 ^ Z.of_nat 4) with 4294967296.
  change (256 ^ Z.of_nat 3) with 16777216.
  change (256 ^ Z.of_nat 2) with 65536.
  change (256 ^ Z.of_nat 1) with 256.
  change (256 ^ Z.of_nat 0) with 1.
  split.
  - Z.div_mod_to_equations. lia.
  - repeat (apply Forall_cons; [Z.div_mod_to_equations; lia|]). apply Forall_nil.
Qed.

End Groups.

Lemma be32_val_app (l1 l2 : list Z) :
  be32_val (l1 ++ l2) = be32_val l1 * 32 ^ Z.of_nat (length l2) + be32_val l2.
Proof.
  induction l1 as [|x l1 IH]; cbn [app be32_val]; [lia|].
  rewrite IH, length_app, Nat2Z.inj_add, Z.pow_add_r by lia. ring.
Qed.

Lemma be32_val_bound (l : list Z) :
  Forall (fun d => 0 <= d < 32) l -> 0 <= be32_val l < 32 ^ Z.of_nat (length l).
Proof.
  induction 1 as [|x t Hx Ht IH]; [simpl; lia|].
  cbn [be32_val length]. rewrite Nat2Z.inj_succ, Z.pow_succ_r by lia.
  assert (0 < 32 ^ Z.of_nat (length t)) by (apply Z.pow_pos_nonneg; lia).
  nia.
Qed.

Lemma bytes_Compare_be32 (a b : list Z) :
  length a = length b ->
  Forall (fun d => 0 <= d < 32) a -> Forall (fun d => 0 <= d < 32) b ->
  bytes_Compare a b = Z.sgn (be32_val a - be32_val b).
Proof.
  revert b. induction a as [|x a IH]; intros [|y b] HL Ha Hb;
    try discriminate HL; [reflexivity|].
  inversion Ha as [|? ? Hx Ha']; subst. inversion Hb as [|? ? Hy Hb']; subst.
  injection HL as HL. cbn [bytes_Compare be32_val]. rewrite <- HL.
  pose proof (be32_val_bound a Ha') as Ba. pose proof (be32_val_bound b Hb') as Bb.
  rewrite <- HL in Bb.
  assert (0 < 32 ^ Z.of_nat (length a)) by (apply Z.pow_pos_nonneg; lia).
  destruct (x <? y) eqn:Hxy.
  - apply Z.ltb_lt in Hxy. symmetry. apply Z.sgn_neg. nia.
  - apply Z.ltb_ge in Hxy. destruct (y <? x) eqn:Hyx.
    + apply Z.ltb_lt in Hyx. symmetry. apply Z.sgn_pos. nia.
    + apply Z.ltb_ge in Hyx. assert (x = y) by lia. subst y.
      rewrite (IH b HL Ha' Hb'). f_equal. lia.
Qed.

(** The alphabet is in ascending order, so the characters compare like
    the groups they stand for. *)
Lemma enc_char_monotone (l1 l2 : list Z) :
  Forall (fun d => 0 <= d < 32) l1 -> Forall (fun d => 0 <= d < 32) l2 ->
  bytes_Compare (map enc_char l1) (map enc_char l2) = bytes_Compare l1 l2.
Proof.
  intros H1. revert l2. induction H1 as [|x l1 Hx H1 IH]; intros l2 H2;
    destruct H2 as [|y l2 Hy H2]; cbn [map bytes_Compare]; try reflexivity.
  assert (K : all2 vals32 vals32
            (fun x y => Bool.eqb (enc_char x <? enc_char y) (x <? y)) = true)
    by (vm_compute; reflexivity).
  pose proof (all2_In _ _ _ _ _ K (In_vals32 x Hx) (In_vals32 y Hy)) as Kxy.
  pose proof (all2_In _ _ _ _ _ K (In_vals32 y Hy) (In_vals32 x Hx)) as Kyx.
  apply Bool.eqb_prop in Kxy, Kyx. rewrite Kxy, Kyx, IH by assumption.
  reflexivity.
Qed.

Lemma Encode_groups (id : ID) :
  length id = rawLen -> Base32.Encode id = map enc_char (groups id).
Proof.
  intros H. list_of_length id 15.
  cbn [Base32.Encode groups]. rewrite !map_app, !map_map, !app_nil_r.
  reflexivity.
Qed.

Lemma groups_value (id : ID) :
  wf_ID id ->
  be32_val (groups id) = be_val id
  /\ Forall (fun d => 0 <= d < 32) (groups id)
  /\ length (groups id) = 24%nat.
Proof.
  intros [HL HB]. list_of_length id 15.
  repeat match goal with
         | H : Forall is_byte (_ :: _) |- _ =>
             apply is_byte_Forall_inv in H; destruct H as [? H]
         end.
  cbn [groups]. rewrite app_nil_r.
  match goal with
  | |- context [be_val [?a0; ?a1; ?a2; ?a3; ?a4; ?c0; ?c1; ?c2; ?c3; ?c4;
                        ?e0; ?e1; ?e2; ?e3; ?e4]] =>
      change [a0; a1; a2; a3; a4; c0; c1; c2; c3; c4; e0; e1; e2; e3; e4]
        with ([a0; a1; a2; a3; a4] ++ [c0; c1; c2; c3; c4] ++ [e0; e1; e2; e3; e4]);
      destruct (Groups.quantum_value a0 a1 a2 a3 a4) as [V1 F1]; try assumption;
      destruct (Groups.quantum_value c0 c1 c2 c3 c4) as [V2 F2]; try assumption;
      destruct (Groups.quantum_value e0 e1 e2 e3 e4) as [V3 F3]; try assumption
  end.
  rewrite !be32_val_app, !be_val_app, V1, V2, V3.
  split; [|split].
  - rewrite !length_app, !length_map. cbn [length Base32.unpack].
    change (32 ^ Z.of_nat (8 + 8)) with (256 ^ Z.of_nat (5 + 5)).
    change (32 ^ Z.of_nat 8) with (256 ^ Z.of_nat 5). reflexivity.
  - repeat (apply Forall_app; split); assumption.
  - reflexivity.
Qed.

Lemma bytes_Compare_firstn (n : nat) (a b : list Z) :
  bytes_Compare (firstn n a) (firstn n b) = -1 -> bytes_Compare a b = -1.
Proof.
  revert a b. induction n as [|n IH]; intros a b; [discriminate|].
  destruct a as [|x a], b as [|y b]; cbn [firstn bytes_Compare]; try easy.
  destruct (x <? y); [reflexivity|]. destruct (y <? x); [discriminate|].
  apply IH.
Qed.

(** X15.  The text form keeps the byte order: comparing the texts of two
    identifiers byte by byte gives the result of comparing their 15 bytes,
    so texts sort like the binary identifiers, and an identifier that
    [Compare] puts strictly first has the smaller text. *)
Theorem text_order (a b : ID) :
  wf_ID a -> wf_ID b ->
  bytes_Compare (String a) (String b) = bytes_Compare a b
  /\ (Compare a b = -1 -> bytes_Compare (String a) (String b) = -1).
Proof.
  intros Ha Hb.
  assert (E : bytes_Compare (String a) (String b) = bytes_Compare a b).
  { rewrite !String_ID by (apply Ha || apply Hb).
    rewrite !Encode_groups by (apply Ha || apply Hb).
    destruct (groups_value a Ha) as [Va [Fa La]].
    destruct (groups_value b Hb) as [Vb [Fb Lb]].
    rewrite enc_char_monotone by assumption.
    rewrite bytes_Compare_be32 by (assumption || congruence).
    rewrite Va, Vb. symmetry. apply bytes_Compare_be.
    - destruct Ha as [-> _], Hb as [-> _]. reflexivity.
    - apply Ha.
    - apply Hb. }
  split; [exact E|]. intros C. rewrite E.
  unfold Compare in C. now apply (bytes_Compare_firstn 5).
Qed.

Lemma text_order_witness :
  bytes_Compare (String sample_id) (String sample_id')
  = bytes_Compare sample_id sample_id'
  /\ (Compare sample_id sample_id' = -1 ->
      bytes_Compare (String sample_id) (String sample_id') = -1).
Proof.
  apply (text_order sample_id sample_id').
  - apply wf_ID_check. vm_compute. reflexivity.
  - apply wf_ID_check. vm_compute. reflexivity.
Defined.

(** ** The command *)

Section CommandProperties.

Variable Seconds : ID -> Z.
Variable Machine : ID -> list Z.
Variable Pid : ID -> Z.
Variable rtsig : list Z.
Variable draw : nat -> Z * Z.

Lemma FromString_cases (arg : list Z) :
  (valid_text arg /\ exists id, FromString arg = Done (id, None) /\ String id = arg)
  \/ (~ valid_text arg /\ FromString arg = Done (nilID, Some ErrInvalidID)).
Proof.
  destruct (valid_textb arg) eqn:Hv.
  - apply valid_textb_spec in Hv. left. split; [exact Hv|].
    destruct (UnmarshalText_valid nilID arg eq_refl Hv) as [r [Hr [_ [Hw He]]]].
    exists r. split; [exact Hr|]. rewrite String_ID by apply Hw. exact He.
  - right.
    assert (Hn : ~ valid_text arg)
      by (intros Hc; apply valid_textb_spec in Hc; congruence).
    split; [exact Hn|]. unfold FromString. now apply UnmarshalText_invalid.
Qed.

Lemma decode_args_spec (args : list (list Z)) (errors : Z) :
  exists ls,
    decode_args Seconds Machine Pid args errors
    = Done (ls, errors + invalid_count args)
    /\ Forall2 (reported Seconds Machine Pid) args ls.
Proof.
  revert errors. induction args as [|arg rest IH]; intros errors.
  - exists []. split; [cbn; f_equal; f_equal; unfold invalid_count; cbn; lia|constructor].
  - cbn [decode_args]. unfold invalid_count. cbn [filter].
    destruct (FromString_cases arg) as [[Hv [id [Hf Hs]]]|[Hn Hf]]; rewrite Hf.
    + rewrite (proj2 (valid_textb_spec arg) Hv). cbn [negb].
      destruct (IH errors) as [ls [E F]]. rewrite E.
      exists (decoded_line Seconds Machine Pid arg id :: ls).
      split; [reflexivity|]. constructor; [|exact F]. left. split; [exact Hv|].
      exists id. repeat split; assumption.
    + assert (Hb : valid_textb arg = false).
      { destruct (valid_textb arg) eqn:Hv; [|reflexivity].
        apply valid_textb_spec in Hv. contradiction. }
      rewrite Hb. cbn [negb length].
      destruct (IH (errors + 1)) as [ls [E F]]. rewrite E.
      exists (DecodeFailed arg ErrInvalidID :: ls). split.
      * f_equal. f_equal. unfold invalid_count. lia.
      * constructor; [|exact F]. right. now split.
Qed.

Lemma invalid_count_pos (args : list (list Z)) :
  0 <= invalid_count args
  /\ (0 < invalid_count args <-> Exists (fun a => ~ valid_text a) args).
Proof.
  unfold invalid_count. split; [lia|].
  induction args as [|a args IH]; cbn [filter].
  - cbn. split; [lia | intros H; inversion H].
  - destruct (valid_textb a) eqn:Hv; cbn [negb].
    + apply valid_textb_spec in Hv. rewrite IH. split.
      * intros H. now apply Exists_cons_tl.
      * intros H. inversion H; subst; [contradiction | assumption].
    + split; [intros _|cbn [length]; lia].
      apply Exists_cons_hd. intros Hc. apply valid_textb_spec in Hc. congruence.
Qed.

(** X16.  The command always terminates, with exit status 0, 1 or 2.  When
    the parsing of the flags ends the program, the status is 0 for [-h]
    and 2 for an undefined or malformed flag, and nothing is decoded or
    generated.  When the flags parse, the status is 1 exactly when a repeat
    count above one is combined with positional arguments or when some
    argument is no well-formed text, and 0 otherwise. *)
Theorem cli_exit_status (fl : flag_outcome) :
  exists out code,
    main Seconds Machine Pid rtsig draw fl = Done (out, code)
    /\ match fl with
       | HelpRequested => code = 0 /\ out = [Usage]
       | BadFlag => code = 2 /\ out = [FlagMessage; Usage]
       | Parsed count args =>
           (code = 0 \/ code = 1)
           /\ (code = 1 <-> (count > 1 /\ args <> [])
                            \/ Exists (fun a => ~ valid_text a) args)
       end.
Proof.
  destruct fl as [| |count args].
  - exists [Usage], 0. repeat split.
  - exists [FlagMessage; Usage], 2. repeat split.
  - unfold main.
    destruct (invalid_count_pos args) as [Hnn Hpos].
    destruct (decode_args_spec args 0) as [ls [E F]].
    destruct ((count >? 1) && (0 <? length args)%nat) eqn:C.
    + exists [ConflictError; Usage], 1. split; [reflexivity|]. split; [now right|].
      split; [intros _|reflexivity]. left.
      apply andb_true_iff in C. destruct C as [C1 C2].
      apply Z.gtb_lt in C1. apply Nat.ltb_lt in C2.
      split; [lia|]. intros ->. cbn in C2. lia.
    + assert (NC : ~ (count > 1 /\ args <> [])).
      { intros [H1 H2]. apply andb_false_iff in C. destruct C as [C|C].
        - rewrite Z.gtb_ltb in C. apply Z.ltb_ge in C. lia.
        - apply Nat.ltb_ge in C. destruct args; [congruence | cbn in C; lia]. }
      rewrite E. cbn [Z.add].
      destruct (invalid_count args >? 0) eqn:G.
      * apply Z.gtb_lt in G. eexists _, 1. split; [reflexivity|].
        split; [now right|]. split; [intros _|reflexivity].
        right. now apply Hpos.
      * rewrite Z.gtb_ltb in G. apply Z.ltb_ge in G.
        assert (NE : ~ Exists (fun a => ~ valid_text a) args)
          by (intros H; apply Hpos in H; lia).
        destruct (length args =? 0)%nat; eexists _, 0;
          (split; [reflexivity|]); (split; [now left|]);
          (split; [discriminate | intros [H|H]; contradiction]).
Qed.

(** X17.  When the flags parse and no repeat count above one is combined
    with arguments, the command reports every argument in turn, in the
    order given: a well-formed text with the fields of the identifier that
    [FromString] returns for it, whose text it is, any other argument with
    the argument itself and the invalid-id error. *)
Theorem cli_reports_arguments (count : Z) (args : list (list Z)) :
  count <= 1 \/ args = [] ->
  exists out code,
    main Seconds Machine Pid rtsig draw (Parsed count args) = Done (out, code)
    /\ Forall2 (reported Seconds Machine Pid) args (firstn (length args) out).
Proof.
  intros H. unfold main.
  assert (C : (count >? 1) && (0 <? length args)%nat = false).
  { apply andb_false_iff. destruct H as [H| ->].
    - left. rewrite Z.gtb_ltb. apply Z.ltb_ge. lia.
    - right. reflexivity. }
  rewrite C. destruct (decode_args_spec args 0) as [ls [E F]]. rewrite E.
  assert (L : length ls = length args)
    by (symmetry; eapply Forall2_length; eassumption).
  assert (P : forall t, firstn (length args) (ls ++ t) = ls).
  { intros t. rewrite <- L, firstn_app, Nat.sub_diag, firstn_all.
    cbn [firstn]. apply app_nil_r. }
  destruct (0 + invalid_count args >? 0).
  - eexists _, _. split; [reflexivity|]. now rewrite P.
  - destruct (length args =? 0)%nat.
    + eexists _, _. split; [reflexivity|]. now rewrite P.
    + eexists _, _. split; [reflexivity|].
      rewrite <- (app_nil_r ls) at 1. now rewrite P.
Qed.

(** X18.  When the flags parse and there are no positional arguments, the
    command prints exactly [count] lines, none for a count of zero or
    less, line [c] being the 24-character text of the identifier that the
    call of [New] number [c] returns, and exits with status 0. *)
Theorem cli_generates (count : Z) :
  is_byte (at_ rtsig 0) ->
  exists out,
    main Seconds Machine Pid rtsig draw (Parsed count []) = Done (out, 0)
    /\ length out = Z.to_nat count
    /\ Forall (fun l => exists text, l = Generated text /\ valid_text text) out
    /\ (forall c, (c < Z.to_nat count)%nat ->
          nth c out Usage
          = Generated (String (New rtsig (fst (draw c)) (snd (draw c))))).
Proof.
  intros Hs. unfold main.
  rewrite andb_false_r. cbn [decode_args Z.gtb Z.compare length Nat.eqb app].
  eexists. split; [reflexivity|]. split; [|split].
  - now rewrite length_map, length_seq.
  - apply Forall_forall. intros l Hl. apply in_map_iff in Hl.
    destruct Hl as [c [<- _]]. eexists. split; [reflexivity|].
    assert (W : wf_ID (New rtsig (fst (draw c)) (snd (draw c))))
      by (unfold New; now apply generated_wf).
    rewrite String_ID by apply W. apply Encode_valid, W.
  - intros c Hc.
    rewrite (nth_indep _ Usage
               (Generated (String (New rtsig (fst (draw 0%nat)) (snd (draw 0%nat))))))
      by (now rewrite length_map, length_seq).
    rewrite (map_nth (fun c => Generated
               (String (New rtsig (fst (draw c)) (snd (draw c)))))).
    now rewrite seq_nth.
Qed.

End CommandProperties.

Lemma cli_reports_arguments_witness :
  exists out code,
    main (fun _ => 0) (fun _ => []) (fun _ => 0) [197] (fun _ => (0, 0))
         (Parsed 1 [sample_text; bad_text]) = Done (out, code)
    /\ Forall2 (reported (fun _ => 0) (fun _ => []) (fun _ => 0))
               [sample_text; bad_text]
               (firstn (length [sample_text; bad_text]) out).
Proof.
  apply (cli_reports_arguments (fun _ => 0) (fun _ => []) (fun _ => 0) [197]
           (fun _ => (0, 0)) 1 [sample_text; bad_text]).
  left. lia.
Defined.

Lemma cli_generates_witness :
  exists out,
    main (fun _ => 0) (fun _ => []) (fun _ => 0) [197]
         (fun c => (Z.of_nat c, 1670369682250)) (Parsed 3 []) = Done (out, 0)
    /\ length out = Z.to_nat 3
    /\ Forall (fun l => exists text, l = Generated text /\ valid_text text) out
    /\ (forall c, (c < Z.to_nat 3)%nat ->
          nth c out Usage
          = Generated (String (New [197] (fst (Z.of_nat c, 1670369682250))
                                         (snd (Z.of_nat c, 1670369682250))))).
Proof.
  apply (cli_generates (fun _ => 0) (fun _ => []) (fun _ => 0) [197]
           (fun c => (Z.of_nat c, 1670369682250)) 3).
  vm_compute. split; [discriminate | reflexivity].
Defined.

(** ** Fields of any identifier *)

Lemma Random_be (id : ID) :
  wf_ID id -> Random id = be_val (firstn 6 (skipn 7 id)).
Proof.
  intros [HL HB]. list_of_length id 15.
  repeat match goal with
         | H : Forall is_byte (_ :: _) |- _ =>
             apply is_byte_Forall_inv in H; destruct H as [? H]
         end.
  unfold Random. cbn [skipn firstn at_ nth]. now apply be48.
Qed.

(** X19.  On any identifier, parsed or generated, the timestamp is the
    number in bytes 0 to 5 and the random accessor the number in bytes 7
    to 12, each most significant byte first and below 2^48, and the
    signature is the single byte at offset 6. *)
Theorem accessors_read_fields (id : ID) :
  wf_ID id ->
  Timestamp id = be_val (firstn 6 id)
  /\ 0 <= Timestamp id < 2 ^ 48
  /\ Random id = be_val (firstn 6 (skipn 7 id))
  /\ 0 <= Random id < 2 ^ 48
  /\ RuntimeSignature id = [nth 6 id 0].
Proof.
  intros Hid.
  assert (B : forall l, Forall is_byte l -> length l = 6%nat ->
              0 <= be_val l < 2 ^ 48).
  { intros l Hl L. pose proof (be_val_bound l Hl) as K. rewrite L in K.
    exact K. }
  rewrite (Timestamp_be id Hid), (Random_be id Hid).
  destruct Hid as [HL HB]. list_of_length id 15.
  repeat match goal with
         | H : Forall is_byte (_ :: _) |- _ =>
             apply is_byte_Forall_inv in H; destruct H as [? H]
         end.
  cbn [firstn skipn].
  repeat split; try reflexivity;
    apply B; try reflexivity;
    repeat (apply Forall_cons; [assumption|]); apply Forall_nil.
Qed.

Lemma accessors_read_fields_witness :
  Timestamp sample_id = be_val (firstn 6 sample_id)
  /\ 0 <= Timestamp sample_id < 2 ^ 48
  /\ Random sample_id = be_val (firstn 6 (skipn 7 sample_id))
  /\ 0 <= Random sample_id < 2 ^ 48
  /\ RuntimeSignature sample_id = [nth 6 sample_id 0].
Proof.
  apply (accessors_read_fields sample_id).
  apply wf_ID_check. vm_compute. reflexivity.
Defined.

(** X20.  The fields determine the identifier: generating from the
    timestamp, the signature and the eight trailing bytes of any
    identifier gives that identifier again. *)
Theorem fields_rebuild (id : ID) :
  wf_ID id ->
  NewWithTimestamp (RuntimeSignature id) (be_val (skipn 7 id)) (Timestamp id) = id.
Proof.
  intros Hid. rewrite (Timestamp_be id Hid). destruct Hid as [HL HB].
  list_of_length id 15.
  repeat match goal with
         | H : Forall is_byte (_ :: _) |- _ =>
             apply is_byte_Forall_inv in H; destruct H as [? H]
         end.
  rewrite NewWithTimestamp_bytes.
  cbn [RuntimeSignature skipn firstn at_ nth be_val length].
  unfold byte, is_byte in *. rewrite !Z.shiftr_div_pow2 by lia.
  change (256 ^ Z.of_nat 7) with 72057594037927936.
  change (256 ^ Z.of_nat 6) with 281474976710656.
  change (256 ^ Z.of_nat 5) with 1099511627776.
  change (256 ^ Z.of_nat 4) with 4294967296.
  change (256 ^ Z.of_nat 3) with 16777216.
  change (256 ^ Z.of_nat 2) with 65536.
  change (256 ^ Z.of_nat 1) with 256.
  change (256 ^ Z.of_nat 0) with 1.
  do 6 (apply f_equal2; [Z.div_mod_to_equations; lia|]).
  apply f_equal2; [reflexivity|].
  do 8 (apply f_equal2; [Z.div_mod_to_equations; lia|]). reflexivity.
Qed.

Lemma fields_rebuild_witness :
  NewWithTimestamp (RuntimeSignature sample_id) (be_val (skipn 7 sample_id))
                   (Timestamp sample_id) = sample_id.
Proof.
  apply (fields_rebuild sample_id).
  apply wf_ID_check. vm_compute. reflexivity.
Defined.
